(** * SSARdsp: a shallow embedding of the speech-processing toolkit

    The JavaScript library [SSARdsp.js] computes on ECMAScript Numbers.  The
    embedding keeps the arithmetic abstract: every function of the library is
    translated once, over a type [T] of numbers that carries the operations
    the source applies ([+], [-], [*], [/], unary minus, [<], [===],
    [Math.floor], [Math.ceil], ...).  Three number systems instantiate it:

    - [float]: IEEE 754 binary64, the values a JavaScript engine computes
      with (rounding, signed zeros, infinities and NaN included);
    - [xrat]: exact rationals extended with NaN and the two infinities, the
      reading of the phrase "in exact arithmetic";
    - [R]: the real numbers, for the transform engine, whose twiddle factors
      come from [Math.exp], [Math.cos] and [Math.sin].

    Arrays are lists; a read outside an array is [None] (JavaScript's
    [undefined]), which arithmetic turns into NaN. *)

From Stdlib Require Import ZArith QArith Qround Qabs Qreduction.
From Stdlib Require Import Reals Floats List Bool Lia Lra Lqa.
From Equations Require Import Equations.
Import ListNotations.

Local Close Scope R_scope.
Local Close Scope Q_scope.
Local Open Scope nat_scope.

Set Implicit Arguments.

(** ** Outcomes of a call *)

(** The errors a call of the library can raise: the engine's own
    [RangeError] (an array length that is not a non-negative integer) and
    [TypeError] (a property read on [undefined]).  The library has no
    [throw] statement of its own. *)
Inductive js_error : Type :=
| RangeError
| TypeError.

Inductive result (A : Type) : Type :=
| Ok (a : A)
| Throw (e : js_error).
Arguments Ok {A} a.
Arguments Throw {A} e.

Definition bind {A B : Type} (r : result A) (k : A -> result B) : result B :=
  match r with
  | Ok a => k a
  | Throw e => Throw e
  end.

Notation "x <- r ;; k" := (bind r (fun x => k))
  (at level 61, r at next level, right associativity).
Notation "' pat <- r ;; k" := (bind r (fun x => match x with pat => k end))
  (at level 61, pat pattern, r at next level, right associativity).

(** ** Numbers *)

(** The arithmetic of the source. [truthy] is JavaScript's truthiness of a
    Number (false for zero and NaN), used by [re || 0]. *)
Class Arith (T : Type) : Type := {
  of_Z : Z -> T;
  add : T -> T -> T;
  sub : T -> T -> T;
  mul : T -> T -> T;
  div : T -> T -> T;
  neg : T -> T;
  truthy : T -> bool
}.

(** Comparisons, the special values and the rounding functions.
    [truncate x] is the integer part of a finite [x] (rounded towards zero)
    and [None] for NaN and the infinities. *)
Class Number (T : Type) : Type := {
  number_arith :: Arith T;
  ltb : T -> T -> bool;
  eqb : T -> T -> bool;
  infinity : T;
  nan : T;
  isFinite : T -> bool;
  Math_floor : T -> T;
  Math_ceil : T -> T;
  truncate : T -> option Z
}.

(** The transcendental functions of [Math]. *)
Class Transcendental (T : Type) : Type := {
  Math_exp : T -> T;
  Math_cos : T -> T;
  Math_sin : T -> T;
  Math_PI : T
}.

Class SquareRoot (T : Type) : Type := {
  Math_sqrt : T -> T
}.

Definition of_nat {T : Type} `{Arith T} (n : nat) : T := of_Z (Z.of_nat n).

(** [x || 0] on a Number. *)
Definition or0 {T : Type} `{Arith T} (x : T) : T :=
  if truthy x then x else of_Z 0.

(** *** The real numbers *)

#[export] Instance R_Arith : Arith R := {
  of_Z := IZR;
  add := Rplus;
  sub := Rminus;
  mul := Rmult;
  div := Rdiv;
  neg := Ropp;
  truthy := fun x => if Req_dec_T x 0%R then false else true
}.

#[export] Instance R_Transcendental : Transcendental R := {
  Math_exp := exp;
  Math_cos := cos;
  Math_sin := sin;
  Math_PI := PI
}.

(** *** IEEE 754 binary64 *)

(** The Number nearest to an integer (round to nearest, ties to even), as
    an integer literal or an array length denotes it. *)
Definition float_of_Z (z : Z) : float :=
  SF2Prim (binary_normalize prec emax z 0 false).

(** [Math.floor] ([up = false]) and [Math.ceil] ([up = true]), read off the
    mantissa and exponent: a value with a non-negative exponent is an
    integer already; otherwise the mantissa is shifted down and bumped by
    one when bits were lost on the side the rounding moves to.  A zero
    result keeps the sign of the argument. *)
Definition float_round (up : bool) (x : float) : float :=
  match Prim2SF x with
  | S754_finite s m e =>
      if (0 <=? e)%Z then x
      else
        let q := Z.shiftr (Z.pos m) (- e) in
        let exact := (Z.shiftl q (- e) =? Z.pos m)%Z in
        let bump := negb exact && (if up then negb s else s) in
        let mag := if bump then (q + 1)%Z else q in
        SF2Prim (binary_normalize prec emax (if s then (- mag)%Z else mag) 0 s)
  | _ => x
  end.

Definition float_truncate (x : float) : option Z :=
  match Prim2SF x with
  | S754_zero _ => Some 0%Z
  | S754_finite s m e =>
      let mag := if (0 <=? e)%Z then Z.shiftl (Z.pos m) e
                 else Z.shiftr (Z.pos m) (- e) in
      Some (if s then (- mag)%Z else mag)
  | _ => None
  end.

#[export] Instance float_Arith : Arith float := {
  of_Z := float_of_Z;
  add := PrimFloat.add;
  sub := PrimFloat.sub;
  mul := PrimFloat.mul;
  div := PrimFloat.div;
  neg := PrimFloat.opp;
  truthy := fun x => negb (PrimFloat.eqb x 0%float) && PrimFloat.eqb x x
}.

#[export] Instance float_Number : Number float := {
  ltb := PrimFloat.ltb;
  eqb := PrimFloat.eqb;
  infinity := PrimFloat.infinity;
  nan := PrimFloat.nan;
  isFinite := PrimFloat.is_finite;
  Math_floor := float_round false;
  Math_ceil := float_round true;
  truncate := float_truncate
}.

#[export] Instance float_SquareRoot : SquareRoot float := {
  Math_sqrt := PrimFloat.sqrt
}.

(** *** Exact arithmetic *)

(** Rationals with the three special values of a Number.  Finite results
    are kept in lowest terms; there is one zero, which divides like [+0]. *)
Inductive xrat : Type :=
| XNaN
| XInf (negative : bool)
| XFin (q : Q).

Definition Qneg_b (q : Q) : bool := negb (Qle_bool 0 q).
Definition Qzero_b (q : Q) : bool := Qeq_bool q 0.

Definition xadd (x y : xrat) : xrat :=
  match x, y with
  | XNaN, _ | _, XNaN => XNaN
  | XInf s, XInf s' => if Bool.eqb s s' then XInf s else XNaN
  | XInf s, XFin _ | XFin _, XInf s => XInf s
  | XFin a, XFin b => XFin (Qred (a + b))
  end.

Definition xneg (x : xrat) : xrat :=
  match x with
  | XNaN => XNaN
  | XInf s => XInf (negb s)
  | XFin a => XFin (Qred (- a))
  end.

Definition xsub (x y : xrat) : xrat := xadd x (xneg y).

Definition xmul (x y : xrat) : xrat :=
  match x, y with
  | XNaN, _ | _, XNaN => XNaN
  | XInf s, XInf s' => XInf (xorb s s')
  | XInf s, XFin a | XFin a, XInf s =>
      if Qzero_b a then XNaN else XInf (xorb s (Qneg_b a))
  | XFin a, XFin b => XFin (Qred (a * b))
  end.

Definition xdiv (x y : xrat) : xrat :=
  match x, y with
  | XNaN, _ | _, XNaN => XNaN
  | XInf _, XInf _ => XNaN
  | XInf s, XFin b => XInf (xorb s (Qneg_b b))
  | XFin _, XInf _ => XFin 0
  | XFin a, XFin b =>
      if Qzero_b b then
        if Qzero_b a then XNaN else XInf (Qneg_b a)
      else XFin (Qred (a / b))
  end.

Definition xltb (x y : xrat) : bool :=
  match x, y with
  | XNaN, _ | _, XNaN => false
  | XInf s, XInf s' => s && negb s'
  | XInf s, XFin _ => s
  | XFin _, XInf s => negb s
  | XFin a, XFin b => negb (Qle_bool b a)
  end.

Definition xeqb (x y : xrat) : bool :=
  match x, y with
  | XInf s, XInf s' => Bool.eqb s s'
  | XFin a, XFin b => Qeq_bool a b
  | _, _ => false
  end.

Definition xround (f : Q -> Z) (x : xrat) : xrat :=
  match x with
  | XFin a => XFin (inject_Z (f a))
  | _ => x
  end.

Definition xtruncate (x : xrat) : option Z :=
  match x with
  | XFin a => Some (if Qneg_b a then Qceiling a else Qfloor a)
  | _ => None
  end.

#[export] Instance xrat_Arith : Arith xrat := {
  of_Z := fun z => XFin (inject_Z z);
  add := xadd;
  sub := xsub;
  mul := xmul;
  div := xdiv;
  neg := xneg;
  truthy := fun x => match x with
                     | XNaN => false
                     | XInf _ => true
                     | XFin a => negb (Qzero_b a)
                     end
}.

#[export] Instance xrat_Number : Number xrat := {
  ltb := xltb;
  eqb := xeqb;
  infinity := XInf false;
  nan := XNaN;
  isFinite := fun x => match x with XFin _ => true | _ => false end;
  Math_floor := xround Qfloor;
  Math_ceil := xround Qceiling;
  truncate := xtruncate
}.

(** ** Complex numbers and the transform engine *)

Section Transform.
Context {T : Type} `{Arith T} `{Transcendental T}.

Record Complex : Type := mkComplex { re : T; im : T }.

(** [new Complex(re, im)]: each field is [arg || 0]. *)
Definition new_Complex (r i : T) : Complex :=
  {| re := or0 r; im := or0 i |}.

Definition Complex_add (this other : Complex) : Complex :=
  new_Complex (add (re this) (re other)) (add (im this) (im other)).

Definition Complex_sub (this other : Complex) : Complex :=
  new_Complex (sub (re this) (re other)) (sub (im this) (im other)).

Definition Complex_mul (this other : Complex) : Complex :=
  let r := sub (mul (re this) (re other)) (mul (im this) (im other)) in
  let i := add (mul (re this) (im other)) (mul (im this) (re other)) in
  new_Complex r i.

Definition Complex_cexp (this : Complex) : Complex :=
  let er := Math_exp (re this) in
  new_Complex (mul er (Math_cos (im this))) (mul er (Math_sin (im this))).

(** A slot of an amplitude array: a [Complex] object or a bare Number
    (the source tests [instanceof Complex]). *)
Inductive elem : Type :=
| Raw (x : T)
| Cx (c : Complex).

(** [if (!(e instanceof Complex)) e = new Complex(e, 0)]. *)
Definition as_Complex (e : elem) : Complex :=
  match e with
  | Cx c => c
  | Raw x => new_Complex x (of_Z 0)
  end.

(** A slot read; indices stay inside the array whenever the length is
    even, the default stands for an unused [undefined]. *)
Definition slot (amplitudes : list elem) (i : nat) : elem :=
  nth i amplitudes (Raw (of_Z 0)).

(** The butterfly loop of [cfft].  [t.mul(oddFFT[k])] builds a product
    that the source drops: [t] remains the bare twiddle factor.  The loop
    overwrites slots [k] and [k + hN] for every [k < hN], so the array it
    leaves is the list of sums followed by the list of differences. *)
Definition butterfly (N : nat) (evenFFT oddFFT : list elem) : list elem :=
  let hN := N / 2 in
  let a := mul (neg (of_Z 2)) Math_PI in
  let t k :=
    let p := div (of_nat k) (of_nat N) in
    let t := Complex_cexp (new_Complex (of_Z 0) (mul a p)) in
    let _ := Complex_mul t (as_Complex (slot oddFFT k)) in
    t in
  map (fun k => Cx (Complex_add (as_Complex (slot evenFFT k)) (t k))) (seq 0 hN)
  ++ map (fun k => Cx (Complex_sub (as_Complex (slot evenFFT k)) (t k))) (seq 0 hN).

(** [cfft] returns its argument array, rewritten in place; the model
    returns the contents the array has at the end.  [new Array(hN)] raises
    [RangeError] when [N / 2] is not an integer. *)
Equations? cfft (amplitudes : list elem) : result (list elem)
  by wf (length amplitudes) lt :=
  cfft amplitudes with le_lt_dec (length amplitudes) 1 := {
    | left _ => Ok amplitudes
    | right Hlen with Nat.eq_dec (length amplitudes mod 2) 0 := {
      | right _ => Throw RangeError
      | left Heven with cfft (map (fun i => slot amplitudes (i * 2))
                                (seq 0 (length amplitudes / 2))) := {
        | Throw e => Throw e
        | Ok evenFFT with cfft (map (fun i => slot amplitudes (i * 2 + 1))
                                  (seq 0 (length amplitudes / 2))) := {
          | Throw e => Throw e
          | Ok oddFFT => Ok (butterfly (length amplitudes) evenFFT oddFFT) } } } }.
Proof.
  all: rewrite length_map, length_seq;
    change (length amplitudes / 2 < length amplitudes);
    apply Nat.div_lt; lia.
Qed.

(** [icfft]: conjugate the [Complex] slots in place, transform, then
    conjugate and scale every slot by [1 / N].  A slot that holds a bare
    Number keeps it: an assignment to a property of a primitive is
    dropped.  The slots are taken to be distinct objects, as they are in
    any array that [cfft] has rewritten. *)
Definition conj_slot (e : elem) : elem :=
  match e with
  | Cx c => Cx {| re := re c; im := neg (im c) |}
  | Raw x => Raw x
  end.

Definition scale_slot (iN : T) (e : elem) : elem :=
  match e with
  | Cx c => Cx {| re := mul (re c) iN; im := mul (neg (im c)) iN |}
  | Raw x => Raw x
  end.

Definition icfft (amplitudes : list elem) : result (list elem) :=
  let N := length amplitudes in
  let iN := div (of_Z 1) (of_nat N) in
  amplitudes' <- cfft (map conj_slot amplitudes) ;;
  Ok (map (scale_slot iN) amplitudes').

End Transform.

Arguments Complex T : clear implicits.
Arguments elem T : clear implicits.

(** ** Arrays of Numbers *)

Section Arrays.
Context {T : Type} `{Number T}.

(** [a[i]] read where the value feeds arithmetic or a [Float64Array]: a
    missing slot is [undefined], which [ToNumber] turns into NaN. *)
Definition rd (a : list T) (i : nat) : T := nth i a nan.

(** [a[i] = v] on a slot of the array; a typed array drops a write outside
    its bounds. *)
Fixpoint upd {A : Type} (i : nat) (v : A) (a : list A) : list A :=
  match a, i with
  | [], _ => []
  | _ :: t, O => v :: t
  | h :: t, S i' => h :: upd i' v t
  end.

(** [a[x]] for a Number [x]: the slot when [x] is a non-negative integer
    within the array, [undefined] otherwise. *)
Definition aget {A : Type} (a : list A) (x : T) : option A :=
  match truncate x with
  | Some z => if eqb x (of_Z z) && (0 <=? z)%Z then nth_error a (Z.to_nat z)
              else None
  | None => None
  end.

Definition ToNumber (v : option T) : T :=
  match v with
  | Some x => x
  | None => nan
  end.

(** [new Float64Array(x)]: NaN gives length 0, a finite [x] is truncated,
    and a negative or infinite length raises [RangeError]. *)
Definition array_length (x : T) : result nat :=
  if eqb x x then
    match truncate x with
    | Some z => if (z <? 0)%Z || (2 ^ 53 <=? z)%Z then Throw RangeError
                else Ok (Z.to_nat z)
    | None => Throw RangeError
    end
  else Ok 0.

(** [x ** 2]. *)
Definition sq (x : T) : T := mul x x.

(** [Math.max(...xs)]: minus infinity for no argument, NaN as soon as one
    argument is NaN. *)
Definition Math_max (xs : list T) : T :=
  fold_left (fun acc x => if negb (eqb x x) then x
                          else if negb (eqb acc acc) then acc
                          else if ltb acc x then x else acc)
            xs (neg infinity).

End Arrays.

(** ** Autocorrelation and linear prediction *)

Section LinearPrediction.
Context {T : Type} `{Number T}.

Definition autocorr (signal : list T) : list T :=
  let n := length signal in
  map (fun lag =>
         fold_left (fun sum i => add sum (mul (rd signal i) (rd signal (i + lag))))
                   (seq 0 (n - lag)) (of_Z 0))
      (seq 0 n).

(** One pass of the loop on [m]: the arrays [a] and [e] before and after.
    The inner update runs [j] upwards on the array [a] itself, so
    [a[m - j]] is read after slot [m - j] has been written whenever
    [m - j < j]. *)
Definition ld_step (R : list T) (st : list T * list T) (m : nat)
  : list T * list T :=
  let '(a, e) := st in
  let sum := fold_left (fun sum j => add sum (mul (rd a j) (rd R (m - j))))
                       (seq 1 (m - 1)) (rd R m) in
  let k := div (neg sum) (rd e (m - 1)) in
  let a := upd m k a in
  let a := fold_left (fun a j => upd j (add (rd a j) (mul k (rd a (m - j)))) a)
                     (seq 1 (m - 1)) a in
  let e := upd m (mul (rd e (m - 1)) (sub (of_Z 1) (mul k k))) e in
  (a, e).

(** The arrays [a] and [e] when the loop of [levinsonDurbin] ends. *)
Definition levinsonDurbin_state (R : list T) (order : nat) : list T * list T :=
  let a := upd 0 (of_Z 1) (repeat (of_Z 0) (order + 1)) in
  let e := upd 0 (rd R 0) (repeat (of_Z 0) (order + 1)) in
  fold_left (ld_step R) (seq 1 order) (a, e).

Definition levinsonDurbin (R : list T) (order : nat) : list T :=
  fst (levinsonDurbin_state R order).

(** The prediction-error energies [e[0..order]] of the same run. *)
Definition levinsonDurbin_energy (R : list T) (order : nat) : list T :=
  snd (levinsonDurbin_state R order).

(** The recursion as the specification words it: within step [m] every
    read of [a] sees the coefficients of order [m - 1] (a scratch copy). *)
Definition ld_step_ref (R : list T) (st : list T * list T) (m : nat)
  : list T * list T :=
  let '(a, e) := st in
  let sum := fold_left (fun sum j => add sum (mul (rd a j) (rd R (m - j))))
                       (seq 1 (m - 1)) (rd R m) in
  let k := div (neg sum) (rd e (m - 1)) in
  let prev := a in
  let a := upd m k a in
  let a := fold_left (fun a j => upd j (add (rd prev j) (mul k (rd prev (m - j)))) a)
                     (seq 1 (m - 1)) a in
  let e := upd m (mul (rd e (m - 1)) (sub (of_Z 1) (mul k k))) e in
  (a, e).

Definition levinsonDurbin_ref_state (R : list T) (order : nat)
  : list T * list T :=
  let a := upd 0 (of_Z 1) (repeat (of_Z 0) (order + 1)) in
  let e := upd 0 (rd R 0) (repeat (of_Z 0) (order + 1)) in
  fold_left (ld_step_ref R) (seq 1 order) (a, e).

Definition levinsonDurbin_ref (R : list T) (order : nat) : list T :=
  fst (levinsonDurbin_ref_state R order).

(** [lpcAnalysis]: pre-emphasis when [preemphasis > 0], else a copy. *)
Definition lpcAnalysis (signal : list T) (order : nat) (preemphasis : T)
  : list T :=
  let len := length signal in
  let preemp := upd 0 (rd signal 0) (repeat (of_Z 0) len) in
  let preemp :=
    if ltb (of_Z 0) preemphasis then
      fold_left (fun p i => upd i (sub (rd signal i)
                                       (mul preemphasis (rd signal (i - 1)))) p)
                (seq 1 (len - 1)) preemp
    else signal in
  let ac := firstn (order + 1) (autocorr preemp) in
  levinsonDurbin ac order.

End LinearPrediction.

(** ** Resampler *)

Section Resampler.
Context {T : Type} `{Number T}.

(** The output length [resample] asks for, [Math.ceil(signal.length / ratio)]. *)
Definition resample_newLength (len : nat) (ratio : T) : T :=
  Math_ceil (div (of_nat len) ratio).

(** The lower source index of output position [i], [Math.floor(i * ratio)]. *)
Definition resample_low (ratio : T) (i : nat) : T :=
  Math_floor (mul (of_nat i) ratio).

(** The body of the loop at position [i]: the value stored in [output[i]]. *)
Definition resample_sample (signal : list T) (ratio : T) (i : nat) : T :=
  let pos := mul (of_nat i) ratio in
  let low := resample_low ratio i in
  let frac := sub pos low in
  if ltb (add low (of_Z 1)) (of_nat (length signal)) then
    add (mul (ToNumber (aget signal low)) (sub (of_Z 1) frac))
        (mul (ToNumber (aget signal (add low (of_Z 1)))) frac)
  else ToNumber (aget signal low).

Definition resample (signal : list T) (oldFs newFs : T) : result (list T) :=
  let ratio := div oldFs newFs in
  let newLength := resample_newLength (length signal) ratio in
  n <- array_length newLength ;;
  Ok (map (resample_sample signal ratio) (seq 0 n)).

Definition waveformCodingSynthesis (originalSignal : list T)
  (bitRateReductionFactor : T) : result (list T) :=
  let numSamples := of_nat (length originalSignal) in
  let reducedSamples := div numSamples bitRateReductionFactor in
  downsampled <- resample originalSignal numSamples reducedSamples ;;
  resample downsampled reducedSamples numSamples.

End Resampler.

(** ** Vector quantizer *)

Section VectorQuantizer.
Context {T : Type} `{Number T}.

(** The innermost loop of both searches: the squared distance over the
    first [D] coordinates. *)
Definition sqdist (D : nat) (feature codeword : list T) : T :=
  fold_left (fun dist d => add dist (sq (sub (rd feature d) (rd codeword d))))
            (seq 0 D) (of_Z 0).

(** The search for the nearest codeword: [minDist] starts at [Infinity],
    [minIdx] at 0, and a codeword replaces the best one only when it is
    strictly nearer. *)
Definition nearest (D : nat) (codebook : list (list T)) (feature : list T)
  : nat :=
  snd (fold_left (fun '(minDist, minIdx) k =>
                    let dist := sqdist D feature (nth k codebook []) in
                    if ltb dist minDist then (dist, k) else (minDist, minIdx))
                 (seq 0 (length codebook)) (infinity, 0)).

Definition vectorQuantization (codebook features : list (list T)) : list nat :=
  map (fun feature => nearest (length feature) codebook feature) features.

Context `{SquareRoot T}.

(** The assignment pass of one iteration, at one feature vector: the
    count of its nearest codeword goes up by one and the vector is added
    to that codeword's row of [newCodebook].  With an empty codebook
    [newCodebook[0]] is [undefined], and reading a coordinate of it raises
    [TypeError]. *)
Definition vq_assign_step (D : nat) (codebook : list (list T))
  (st : result (list nat * list (list T))) (feature : list T)
  : result (list nat * list (list T)) :=
  '(counts, newCodebook) <- st ;;
  let minIdx := nearest D codebook feature in
  match nth_error newCodebook minIdx with
  | None => if D =? 0 then Ok (counts, newCodebook) else Throw TypeError
  | Some row =>
      let row := fold_left (fun row d => upd d (add (rd row d) (rd feature d)) row)
                           (seq 0 D) row in
      Ok (upd minIdx (S (nth minIdx counts 0)) counts,
          upd minIdx row newCodebook)
  end.

(** [counts] and the sums in [newCodebook] after every feature vector has
    been assigned; both start at zero. *)
Definition vq_assign (D : nat) (features codebook : list (list T))
  : result (list nat * list (list T)) :=
  fold_left (vq_assign_step D codebook) features
    (Ok (repeat 0 (length codebook), repeat (repeat (of_Z 0) D) (length codebook))).

(** The update pass, at codeword [k]: the sums are divided by the count
    when it is positive, the displacement is tested against [tol], and the
    row of [newCodebook] becomes the codeword. *)
Definition vq_update_at (D : nat) (tol : T) (counts : list nat)
  (newCodebook : list (list T)) (st : list (list T) * bool) (k : nat)
  : list (list T) * bool :=
  let '(codebook, changed) := st in
  let count := nth k counts 0 in
  let row := nth k newCodebook [] in
  let row :=
    if 0 <? count then
      fold_left (fun row d => upd d (div (rd row d) (of_nat count)) row) (seq 0 D) row
    else row in
  let dist := fold_left (fun dist d => add dist (sq (sub (rd row d)
                                                       (rd (nth k codebook []) d))))
                        (seq 0 D) (of_Z 0) in
  let changed := if ltb tol (Math_sqrt dist) then true else changed in
  (upd k row codebook, changed).

(** One iteration of the training loop: the new codebook and [changed]. *)
Definition vq_iteration (D : nat) (tol : T) (features codebook : list (list T))
  : result (list (list T) * bool) :=
  '(counts, newCodebook) <- vq_assign D features codebook ;;
  Ok (fold_left (vq_update_at D tol counts newCodebook)
                (seq 0 (length codebook)) (codebook, false)).

Fixpoint vq_iterate (maxIter D : nat) (tol : T) (features codebook : list (list T))
  : result (list (list T)) :=
  match maxIter with
  | O => Ok codebook
  | S maxIter' =>
      '(codebook, changed) <- vq_iteration D tol features codebook ;;
      if changed then vq_iterate maxIter' D tol features codebook
      else Ok codebook
  end.

(** The codebook drawn at the start: codeword [i] is a copy of
    [features[Math.floor(Math.random() * N)]].  [random i] is the Number
    the call of [Math.random] for codeword [i] returns. *)
Definition vq_init (random : nat -> T) (features : list (list T))
  (codebookSize : nat) : result (list (list T)) :=
  fold_left
    (fun st i =>
       codebook <- st ;;
       match aget features (Math_floor (mul (random i) (of_nat (length features)))) with
       | Some feature => Ok (codebook ++ [feature])
       | None => Throw TypeError
       end)
    (seq 0 codebookSize) (Ok []).

(** [features[0].length] raises [TypeError] on an empty feature set. *)
Definition trainVqCodebook (random : nat -> T) (features : list (list T))
  (codebookSize maxIter : nat) (tol : T) : result (list (list T)) :=
  match features with
  | [] => Throw TypeError
  | first :: _ =>
      let D := length first in
      codebook <- vq_init random features codebookSize ;;
      vq_iterate maxIter D tol features codebook
  end.

End VectorQuantizer.

(** ** Pitch detector *)

Section PitchDetector.
Context {T : Type} `{Number T}.

(** The scan [for (let i = minLag + 1; i < maxLag; i++)].  The counter is a
    Number, so the loop is bounded by [fuel]: [None] stands for a scan that
    is still running when the fuel is spent.  [maxVal] is [None] while it
    holds [undefined]; a comparison with [undefined] is false. *)
Fixpoint pitch_scan (fuel : nat) (normalized : list T) (maxLag i : T)
  (maxVal : option T) (peakLag : T) : option (option T * T) :=
  match fuel with
  | O => None
  | S fuel' =>
      if ltb i maxLag then
        let v := aget normalized i in
        if ltb (ToNumber maxVal) (ToNumber v)
        then pitch_scan fuel' normalized maxLag (add i (of_Z 1)) v i
        else pitch_scan fuel' normalized maxLag (add i (of_Z 1)) maxVal peakLag
      else Some (maxVal, peakLag)
  end.

Definition pitchDetectionAutocorr (fuel : nat) (signal : list T)
  (fs minFreq maxFreq : T) : option T :=
  let ac := autocorr signal in
  let maxAuto := Math_max ac in
  if eqb maxAuto (of_Z 0) then Some (of_Z 0)
  else
    let normalized := map (fun v => div v maxAuto) ac in
    let minLag := Math_floor (div fs maxFreq) in
    let maxLag := Math_floor (div fs minFreq) in
    match pitch_scan fuel normalized maxLag (add minLag (of_Z 1))
                     (aget normalized minLag) minLag with
    | None => None
    | Some (maxVal, peakLag) =>
        if ltb (ToNumber maxVal) (div (of_Z 1) (of_Z 2)) then Some (of_Z 0)
        else Some (div fs peakLag)
    end.

End PitchDetector.

(** ** Synthesis filter *)

Section SynthesisFilter.
Context {T : Type} `{Number T}.

(** One turn of the loop of [iirFilter] at sample [i]: the accumulator
    starts at [input[i] * gain] and loses [coeffs[j] * state[j - 1]] for
    [j] from 1 to [order]; the delay line is shifted from its last slot
    down to slot 1, and slot 0 takes the new output. *)
Definition iir_step (input coeffs : list T) (gain : T) (order : nat)
  (st : list T * list T) (i : nat) : list T * list T :=
  let '(output, state) := st in
  let acc := fold_left (fun acc j => sub acc (mul (rd coeffs j) (rd state (j - 1))))
                       (seq 1 order) (mul (rd input i) gain) in
  let output := upd i acc output in
  let state := fold_left (fun state j => upd j (rd state (j - 1)) state)
                         (rev (seq 1 (order - 1))) state in
  let state := upd 0 acc state in
  (output, state).

(** [coeffs.length - 1] is -1 for an empty [coeffs], and
    [new Float64Array(-1)] raises [RangeError]. *)
Definition iirFilter (input coeffs : list T) (gain : T) : result (list T) :=
  match coeffs with
  | [] => Throw RangeError
  | _ :: _ =>
      let order := length coeffs - 1 in
      Ok (fst (fold_left (iir_step input coeffs gain order)
                         (seq 0 (length input))
                         (repeat (of_Z 0) (length input), repeat (of_Z 0) order)))
  end.

Definition lpcSynthesis (excitation lpcCoeffs : list T) (gain : T)
  : result (list T) :=
  iirFilter excitation lpcCoeffs gain.

(** [lpcAnalysis(signal, order)] with the default pre-emphasis 0.97, the
    call the Max wrapper's [list] makes with order 12. *)
Definition lpcAnalysis_default (signal : list T) (order : nat) : list T :=
  lpcAnalysis signal order (div (of_Z 97) (of_Z 100)).

End SynthesisFilter.

(** ** Cepstral analysis *)

Class Logarithm (T : Type) : Type := {
  Math_log : T -> T
}.

Section Cepstrum.
Context {T : Type} `{Number T} `{Transcendental T} `{Logarithm T}.

(** [c.re] on a slot; a bare Number has no such property, and
    [undefined] becomes NaN in arithmetic. *)
Definition slot_re (e : elem T) : T :=
  match e with
  | Cx c => re c
  | Raw _ => nan
  end.

Definition slot_im (e : elem T) : T :=
  match e with
  | Cx c => im c
  | Raw _ => nan
  end.

Definition cepstralAnalysis (signal : list T) (nCeps : nat) : result (list T) :=
  spectrum <- cfft (map (fun v => Cx (new_Complex v (of_Z 0))) signal) ;;
  let logSpectrum :=
    map (fun c => div (Math_log (add (add (mul (slot_re c) (slot_re c))
                                          (mul (slot_im c) (slot_im c)))
                                     (div (of_Z 1) (of_Z 10000000000))))
                      (of_Z 2))
        spectrum in
  cepstrum <- icfft (map (fun v => Cx (new_Complex v (of_Z 0))) logSpectrum) ;;
  Ok (map slot_re (firstn nCeps cepstrum)).

(** The sample of index [i] of [speechProductionModel]. *)
Definition speech_sample (amplitude frequency fs : T) (i : nat) : T :=
  mul amplitude
      (Math_sin (div (mul (mul (mul (of_Z 2) Math_PI) frequency) (of_nat i)) fs)).

Definition speechProductionModel (amplitude frequency duration fs : T)
  : result (list T) :=
  len <- array_length (Math_floor (mul fs duration)) ;;
  Ok (map (speech_sample amplitude frequency fs) (seq 0 len)).

End Cepstrum.

(** * Vocabulary of the properties *)

(** Integer samples as Numbers of either system. *)
Definition xrats (l : list Z) : list xrat := map of_Z l.
Definition floats (l : list Z) : list float := map of_Z l.

(** [ifft(fft(x))]: the inverse transform applied to the array the forward
    transform returns. *)
Definition round_trip {T : Type} `{Arith T} `{Transcendental T}
  (x : list (elem T)) : result (list (elem T)) :=
  X <- cfft x ;; icfft X.

(** [resample(resample(x, fs, fs/2), fs/2, fs)]. *)
Definition resample_there_and_back {T : Type} `{Number T} (x : list T) (fs : T)
  : result (list T) :=
  half <- resample x fs (div fs (of_Z 2)) ;;
  resample half (div fs (of_Z 2)) fs.

(** ** Exact values *)

(** [x] is the finite Number of value [q]. *)
Definition xrat_is (x : xrat) (q : Q) : Prop :=
  exists q', x = XFin q' /\ (q' == q)%Q.

(** Sum of [g 0 .. g (n - 1)]. *)
Fixpoint Qsum (g : nat -> Q) (n : nat) : Q :=
  match n with
  | O => 0%Q
  | S n' => (Qsum g n' + g n')%Q
  end.

(** The squared Euclidean distance of two rational vectors, over the
    coordinates of the first. *)
Definition Qsqdist (f c : list Q) : Q :=
  Qsum (fun d => (nth d f 0 - nth d c 0) * (nth d f 0 - nth d c 0))%Q (length f).

(** The energy of a rational signal and its lag sums. *)
Definition Qenergy (signal : list Q) : Q :=
  Qsum (fun i => nth i signal 0 * nth i signal 0)%Q (length signal).

Definition Qlagsum (signal : list Q) (lag : nat) : Q :=
  Qsum (fun i => nth i signal 0 * nth (i + lag) signal 0)%Q (length signal - lag).

(** ** Special values *)

(** What the arithmetic does with a zero divisor and with a value that is
    not finite.  Both Number systems with special values obey it. *)
Class BreakdownLaws (T : Type) {N : Number T} : Prop := {
  div_zero_not_finite :
    forall x y : T, eqb y (of_Z 0) = true -> isFinite (div x y) = false;
  add_not_finite :
    forall x y : T, isFinite x = false -> isFinite (add x y) = false
}.

Arguments BreakdownLaws T {N}.

(** A value of the IEEE specification that is a zero or a finite number. *)
Definition SF_finite (s : spec_float) : bool :=
  match s with
  | S754_zero _ | S754_finite _ _ _ => true
  | _ => false
  end.

(** ** Accumulators of the quantizer *)

(** The accumulators after some assignments: as many counts and rows as
    codewords, and a row whose count is still 0 is still all zeros. *)
Definition vq_sums_ok {T : Type} `{Number T} (D K : nat)
  (st : list nat * list (list T)) : Prop :=
  length (fst st) = K
  /\ length (snd st) = K
  /\ forall k, k < K -> nth k (fst st) 0 = 0 ->
       nth k (snd st) [] = repeat (of_Z 0) D.

(** ** Recurrence of the synthesis filter *)

Section SynthesisVocabulary.
Context {T : Type} `{Number T}.

(** The shift [for (j = m; j > 0; j--) state[j] = state[j - 1]]. *)
Definition delay_shift (m : nat) (state : list T) : list T :=
  fold_left (fun state j => upd j (rd state (j - 1)) state) (rev (seq 1 m)) state.

(** The value the recurrence gives sample [i] from the earlier outputs:
    [input[i] * gain - coeffs[1] * y[i-1] - ... - coeffs[order] * y[i-order]],
    subtracted in this order, with zero for the outputs before the start. *)
Definition iir_sample (input coeffs : list T) (gain : T) (y : list T) (i : nat)
  : T :=
  fold_left (fun acc j => sub acc (mul (rd coeffs j)
                                       (if j <=? i then rd y (i - j) else of_Z 0)))
            (seq 1 (length coeffs - 1)) (mul (rd input i) gain).

(** The state of the loop of [iirFilter] before sample [i]. *)
Definition iir_invariant (input coeffs : list T) (gain : T) (i : nat)
  (st : list T * list T) : Prop :=
  length (fst st) = length input
  /\ length (snd st) = length coeffs - 1
  /\ (forall j, j < length coeffs - 1 ->
        rd (snd st) j = if j <? i then rd (fst st) (i - 1 - j) else of_Z 0)
  /\ (forall p, p < i -> rd (fst st) p = iir_sample input coeffs gain (fst st) p).

End SynthesisVocabulary.

(** ** Order of the computed distances *)

(** What the search of the quantizer needs of [<]: it is a strict order in
    which two Numbers that are not NaN always compare, and nothing lies
    above [Infinity]. *)
Class OrderLaws (T : Type) {N : Number T} : Prop := {
  ltb_irreflexive : forall x : T, ltb x x = false;
  ltb_transitive :
    forall x y z : T, ltb x y = true -> ltb y z = true -> ltb x z = true;
  ltb_not_below :
    forall x y z : T,
      ltb x z = true -> ltb y z = false -> eqb y y = true -> ltb x y = true;
  ltb_infinity :
    forall x y : T,
      ltb x infinity = false -> ltb y infinity = false -> ltb y x = false
}.

Arguments OrderLaws T {N}.

(** A key whose lexicographic order is the order of the IEEE
    specification on the values that are not NaN. *)
Definition SF_key (s : spec_float) : option (Z * Z * Z) :=
  match s with
  | S754_nan => None
  | S754_zero _ => Some (0, 0, 0)%Z
  | S754_infinity false => Some (2, 0, 0)%Z
  | S754_infinity true => Some (-2, 0, 0)%Z
  | S754_finite false m e => Some (1, e, Z.pos m)%Z
  | S754_finite true m e => Some (-1, - e, - Z.pos m)%Z
  end.

Definition key_lt (a b : Z * Z * Z) : Prop :=
  let '(a1, a2, a3) := a in
  let '(b1, b2, b3) := b in
  (a1 < b1 \/ (a1 = b1 /\ (a2 < b2 \/ (a2 = b2 /\ a3 < b3))))%Z.

Definition SF_lt (x y : spec_float) : Prop :=
  match SF_key x, SF_key y with
  | Some a, Some b => key_lt a b
  | _, _ => False
  end.

(** * Properties *)

(** ** The transform engine over the real numbers *)

Lemma or0_R (x : R) : or0 x = x.
Proof.
  unfold or0; cbn. destruct (Req_dec_T x 0%R); congruence.
Qed.

Lemma Cx_eq (a b c d : R) :
  a = c -> b = d -> Cx {| re := a; im := b |} = Cx {| re := c; im := d |}.
Proof. intros; subst; reflexivity. Qed.

(** The twiddle factor of index 0 is 1, whatever the length. *)
Lemma twiddle_0 (a N : R) :
  Complex_cexp (new_Complex (of_Z 0) (mul a (div (of_nat 0) N)))
  = {| re := 1%R; im := 0%R |}.
Proof.
  unfold Complex_cexp, new_Complex, of_nat; cbn.
  rewrite !or0_R.
  replace (a * (0 / N))%R with 0%R by (unfold Rdiv; ring).
  rewrite exp_0, cos_0, sin_0, !Rmult_1_l. reflexivity.
Qed.

(** On two points the forward transform returns [x0 + 1] and [x0 - 1]: the
    odd sample never enters the result. *)
Lemma cfft_pair (x0 x1 : elem R) :
  cfft [x0; x1]
  = Ok [Cx {| re := (re (as_Complex x0) + 1)%R; im := (im (as_Complex x0) + 0)%R |};
        Cx {| re := (re (as_Complex x0) - 1)%R; im := (im (as_Complex x0) - 0)%R |}].
Proof.
  simp cfft; cbn. simp cfft; cbn. simp cfft; cbn.
  unfold butterfly; cbn [Nat.div Nat.divmod fst seq map app slot nth].
  rewrite twiddle_0.
  unfold Complex_add, Complex_sub, new_Complex; cbn [re im add sub R_Arith].
  rewrite !or0_R. reflexivity.
Qed.

(** The round trip on two points, whatever they are. *)
Lemma round_trip_two_points (x0 x1 : Complex R) :
  round_trip [Cx x0; Cx x1]
  = Ok [Cx {| re := (re x0 / 2 + 1)%R; im := (im x0 / 2)%R |};
        Cx {| re := (re x0 / 2)%R; im := (im x0 / 2)%R |}].
Proof.
  unfold round_trip. rewrite cfft_pair. cbn [bind].
  unfold icfft. cbn [map conj_slot length].
  rewrite cfft_pair. cbn [bind map scale_slot as_Complex re im].
  unfold of_nat; cbn [of_Z add sub mul div neg R_Arith Z.of_nat Pos.of_succ_nat Pos.succ].
  f_equal. f_equal; [ | f_equal ]; apply Cx_eq; field.
Qed.

(** C1, on the code: for every two-point complex sequence [x0, x1], the
    inverse transform of the forward transform is [x0/2 + 1, x0/2].  The
    result does not depend on [x1], so the round trip does not return the
    sequence it started from: the sequence [1, 2] comes back as
    [1.5, 0.5]. *)
Theorem round_trip_pair :
  (forall x0 x1 : Complex R,
     round_trip [Cx x0; Cx x1]
     = Ok [Cx {| re := (re x0 / 2 + 1)%R; im := (im x0 / 2)%R |};
           Cx {| re := (re x0 / 2)%R; im := (im x0 / 2)%R |}])
  /\ round_trip [Cx {| re := 1%R; im := 0%R |}; Cx {| re := 2%R; im := 0%R |}]
     = Ok [Cx {| re := (3 / 2)%R; im := 0%R |}; Cx {| re := (1 / 2)%R; im := 0%R |}].
Proof.
  split; [ exact round_trip_two_points | ].
  rewrite round_trip_two_points. cbn [re im].
  f_equal. f_equal; [ | f_equal ]; apply Cx_eq; field.
Qed.

(** ** Linear prediction: the in-place coefficient update *)

(** C2, on the code: for the autocorrelation [2, 1, 1, 1] and order 3 the
    update of step 3 reads [a[1]] after it was rewritten, and the returned
    vector differs from the one of the recursion that reads the
    coefficients of order 2 (slot 2: -13/48 against -1/4), in exact and in
    binary64 arithmetic alike. *)
Theorem levinsonDurbin_reads_updated_slot :
  levinsonDurbin (xrats [2; 1; 1; 1]%Z) 3
  = [XFin 1; XFin (-1 # 4); XFin (-13 # 48); XFin (-1 # 4)]
  /\ levinsonDurbin_ref (xrats [2; 1; 1; 1]%Z) 3
     = [XFin 1; XFin (-1 # 4); XFin (-1 # 4); XFin (-1 # 4)]
  /\ eqb (rd (levinsonDurbin (floats [2; 1; 1; 1]%Z) 3) 2)
         (rd (levinsonDurbin_ref (floats [2; 1; 1; 1]%Z) 3) 2) = false.
Proof.
  split; [ | split ]; vm_compute; reflexivity.
Qed.

(** ** Linear prediction: the error energies *)

(** C7, on the code: the signal [1, 1, -1, -1, 1, 1, -1, -1] has the
    autocorrelation [8, 1, -6, -1, 4, 1, ...]; at order 5 the energies the
    code computes end in a negative value, in exact arithmetic and in
    binary64, while the recursion on the coefficients of the previous
    order ends in 155/78. *)
Theorem levinsonDurbin_energy_negative :
  firstn 6 (autocorr (xrats [1; 1; -1; -1; 1; 1; -1; -1]%Z))
  = xrats [8; 1; -6; -1; 4; 1]%Z
  /\ levinsonDurbin_energy (xrats [8; 1; -6; -1; 4; 1]%Z) 5
     = [XFin 8; XFin (63 # 8); XFin (28 # 9); XFin (19 # 7);
        XFin (8507 # 4788); XFin (-107910149125 # 529346781936)]
  /\ ltb (rd (levinsonDurbin_energy (floats [8; 1; -6; -1; 4; 1]%Z) 5) 5)
         (of_Z 0) = true
  /\ snd (levinsonDurbin_ref_state (xrats [8; 1; -6; -1; 4; 1]%Z) 5)
     = [XFin 8; XFin (63 # 8); XFin (28 # 9); XFin (19 # 7);
        XFin (312 # 133); XFin (155 # 78)].
Proof.
  repeat split; vm_compute; reflexivity.
Qed.

(** ** Resampler: the reads of the last position *)

(** C10, on the code: resampling five samples from rate 5 to rate 61 in
    binary64.  [5 / (5 / 61)] rounds to a value above 61, so the output has
    62 positions; at position 61 [Math.floor(61 * ratio)] is 5, the length
    of the signal, the read [signal[5]] is [undefined] and the stored
    sample is NaN.  The library's own round trip meets the same rounding:
    [waveformCodingSynthesis] on the 24 samples [1 .. 24] with factor 5
    returns 26 samples, the last of them NaN. *)
Theorem resample_reads_past_end :
  array_length (resample_newLength 5 (div (of_Z 5) (of_Z 61) : float)) = Ok 62
  /\ resample_low (div (of_Z 5) (of_Z 61) : float) 61 = of_Z 5
  /\ aget (floats [1; 2; 3; 4; 5]%Z) (resample_low (div (of_Z 5) (of_Z 61)) 61)
     = None
  /\ (exists output,
        resample (floats [1; 2; 3; 4; 5]%Z) (of_Z 5) (of_Z 61) = Ok output
        /\ length output = 62
        /\ nth_error output 61 = Some nan)
  /\ (exists output,
        waveformCodingSynthesis (map of_nat (seq 1 24) : list float) (of_Z 5)
        = Ok output
        /\ length output = 26
        /\ nth_error output 25 = Some nan).
Proof.
  repeat split; try (vm_compute; reflexivity);
    eexists; repeat split; vm_compute; reflexivity.
Qed.

(** ** Vector quantizer: a codeword without assignment *)

(** C3, on the code: features [[1], [3]], both codewords drawn as [1].
    Every feature goes to codeword 0 (ties to the lowest index); codeword 1
    receives none, and the iteration replaces it by [0], the untouched
    accumulator, instead of leaving it at [1]. *)
Theorem vq_iteration_resets_empty_codeword :
  vq_init (fun _ => of_Z 0) [floats [1]%Z; floats [3]%Z] 2
  = Ok [floats [1]%Z; floats [1]%Z]
  /\ vq_assign 1 [floats [1]%Z; floats [3]%Z] [floats [1]%Z; floats [1]%Z]
     = Ok ([2; 0], [floats [4]%Z; floats [0]%Z])
  /\ vq_iteration 1 (of_Z 0) [floats [1]%Z; floats [3]%Z] [floats [1]%Z; floats [1]%Z]
     = Ok ([floats [2]%Z; floats [0]%Z], true)
  /\ trainVqCodebook (fun _ => of_Z 0) [floats [1]%Z; floats [3]%Z] 2 1 (of_Z 0)
     = Ok [floats [2]%Z; floats [0]%Z].
Proof.
  repeat split; vm_compute; reflexivity.
Qed.

(** ** Array lemmas *)

Ltac nat_bool :=
  repeat match goal with
    | H : (_ <=? _) = true |- _ => apply Nat.leb_le in H
    | H : (_ <=? _) = false |- _ => apply Nat.leb_gt in H
    | H : (_ <? _) = true |- _ => apply Nat.ltb_lt in H
    | H : (_ <? _) = false |- _ => apply Nat.ltb_ge in H
    end.

Section ArrayFacts.
Context {T : Type} `{Number T}.

Lemma length_upd {A : Type} (i : nat) (v : A) (a : list A) :
  length (upd i v a) = length a.
Proof.
  revert i; induction a as [ | h t IH ]; intros [ | i ]; simpl; auto.
Qed.

Lemma nth_upd_eq {A : Type} (i : nat) (v d : A) (a : list A) :
  i < length a -> nth i (upd i v a) d = v.
Proof.
  revert i; induction a as [ | h t IH ]; intros [ | i ] Hi; simpl in *;
    try lia; auto. apply IH; lia.
Qed.

Lemma nth_upd_neq {A : Type} (i j : nat) (v d : A) (a : list A) :
  i <> j -> nth j (upd i v a) d = nth j a d.
Proof.
  revert i j; induction a as [ | h t IH ]; intros [ | i ] [ | j ] Hij; simpl;
    try congruence; auto.
Qed.

Lemma rd_upd_eq (i : nat) (v : T) (a : list T) :
  i < length a -> rd (upd i v a) i = v.
Proof. apply nth_upd_eq. Qed.

Lemma rd_upd_neq (i j : nat) (v : T) (a : list T) :
  i <> j -> rd (upd i v a) j = rd a j.
Proof. apply nth_upd_neq. Qed.

(** An invariant of the state carries over a loop on a list of indices. *)
Lemma fold_left_invariant {S I : Type} (P : S -> Prop) (Q : I -> Prop)
  (f : S -> I -> S) (l : list I) (s : S) :
  (forall s i, Q i -> P s -> P (f s i)) ->
  Forall Q l -> P s -> P (fold_left f l s).
Proof.
  intros Hf; revert s; induction l as [ | i l IH ]; intros s Hl Hs; simpl; auto.
  inversion Hl; subst. apply IH; auto.
Qed.

Lemma Forall_seq (P : nat -> Prop) (start len : nat) :
  (forall i, start <= i < start + len -> P i) -> Forall P (seq start len).
Proof.
  intros HP. apply Forall_forall. intros i Hi. apply in_seq in Hi. auto.
Qed.

End ArrayFacts.

(** ** Linear prediction: a zero error energy *)

Lemma is_finite_SF (x : float) : PrimFloat.is_finite x = SF_finite (Prim2SF x).
Proof.
  unfold PrimFloat.is_finite, PrimFloat.is_nan, PrimFloat.is_infinity.
  rewrite !FloatAxioms.eqb_spec, abs_spec.
  change (Prim2SF PrimFloat.infinity) with (S754_infinity false).
  destruct (Prim2SF x) as [ [ | ] | [ | ] | | [ | ] m e ]; try reflexivity.
  - unfold SFeqb, SFabs, SFcompare; cbn. rewrite Z.compare_refl, Pos.compare_refl. reflexivity.
  - unfold SFeqb, SFabs, SFcompare; cbn. rewrite Z.compare_refl, Pos.compare_refl. reflexivity.
Qed.

Lemma eqb_zero_SF (y : float) :
  PrimFloat.eqb y (float_of_Z 0) = true -> exists s, Prim2SF y = S754_zero s.
Proof.
  rewrite FloatAxioms.eqb_spec.
  change (Prim2SF (float_of_Z 0)) with (S754_zero false).
  destruct (Prim2SF y) as [ s | [ | ] | | [ | ] m e ]; try discriminate.
  eauto.
Qed.

#[export] Instance float_BreakdownLaws : BreakdownLaws float.
Proof.
  split.
  - intros x y Hy. apply eqb_zero_SF in Hy as [s Hs].
    cbn [isFinite float_Number div number_arith float_Arith].
    rewrite is_finite_SF, div_spec, Hs.
    destruct (Prim2SF x) as [ [ | ] | [ | ] | | [ | ] m e ]; destruct s; reflexivity.
  - intros x y.
    cbn [isFinite float_Number add number_arith float_Arith].
    rewrite !is_finite_SF, add_spec.
    destruct (Prim2SF x) as [ [ | ] | [ | ] | | [ | ] m e ]; try discriminate; intros _;
      destruct (Prim2SF y) as [ [ | ] | [ | ] | | [ | ] m' e' ]; reflexivity.
Qed.

#[export] Instance xrat_BreakdownLaws : BreakdownLaws xrat.
Proof.
  split.
  - intros x [ | s | b ]; try discriminate.
    change (eqb (XFin b) (of_Z 0)) with (Qzero_b b). intros Hb.
    destruct x as [ | s | a ];
      cbn [isFinite xrat_Number div number_arith xrat_Arith xdiv]; auto.
    rewrite Hb. destruct (Qzero_b a); reflexivity.
  - intros [ | s | a ] [ | s' | b ];
      cbn [isFinite xrat_Number add number_arith xrat_Arith xadd];
      try discriminate; auto.
    destruct (Bool.eqb s s'); reflexivity.
Qed.

Section ZeroEnergy.
Context {T : Type} {N : Number T} {L : BreakdownLaws T}.

(** The inner loop [a[j] += k * a[m - j]] over any list of indices: the
    length stays, a slot whose index is not visited stays, and a slot that
    holds a value that is not finite keeps such a value. *)
Lemma inner_update_length (k : T) (m : nat) (js : list nat) (a : list T) :
  length (fold_left (fun a j => upd j (add (rd a j) (mul k (rd a (m - j)))) a) js a)
  = length a.
Proof.
  revert a; induction js as [ | j js IH ]; intros a; simpl; auto.
  rewrite IH. apply length_upd.
Qed.

Lemma inner_update_other (k : T) (m i : nat) (js : list nat) (a : list T) :
  ~ In i js ->
  rd (fold_left (fun a j => upd j (add (rd a j) (mul k (rd a (m - j)))) a) js a) i
  = rd a i.
Proof.
  revert a; induction js as [ | j js IH ]; intros a Hi; simpl; auto.
  rewrite IH by (intros Hin; apply Hi; right; exact Hin).
  apply rd_upd_neq. intros ->. apply Hi. left; reflexivity.
Qed.

Lemma inner_update_not_finite (k : T) (m i : nat) (js : list nat) (a : list T) :
  isFinite (rd a i) = false ->
  isFinite (rd (fold_left (fun a j => upd j (add (rd a j) (mul k (rd a (m - j)))) a)
                          js a) i) = false.
Proof.
  revert a; induction js as [ | j js IH ]; intros a Ha; simpl; auto.
  apply IH.
  destruct (Nat.eq_dec j i) as [ -> | Hji ].
  - destruct (Nat.lt_ge_cases i (length a)) as [ Hlt | Hge ].
    + rewrite rd_upd_eq by exact Hlt. apply add_not_finite, Ha.
    + unfold rd in *. rewrite nth_overflow in * by (rewrite ?length_upd; lia).
      exact Ha.
  - rewrite rd_upd_neq by exact Hji. exact Ha.
Qed.

Lemma ld_step_length (R : list T) (st : list T * list T) (m : nat) :
  length (fst (ld_step R st m)) = length (fst st)
  /\ length (snd (ld_step R st m)) = length (snd st).
Proof.
  destruct st as [a e]; unfold ld_step; cbn [fst snd].
  rewrite inner_update_length, !length_upd. auto.
Qed.

Lemma ld_step_energy_other (R : list T) (st : list T * list T) (m i : nat) :
  m <> i -> rd (snd (ld_step R st m)) i = rd (snd st) i.
Proof.
  destruct st as [a e]; unfold ld_step; cbn [fst snd]. apply rd_upd_neq.
Qed.

(** Step [m] with a zero energy [e[m - 1]]: the reflection term is a
    quotient by zero and lands in slot [m]. *)
Lemma ld_step_zero_energy (R : list T) (a e : list T) (m : nat) :
  1 <= m < length a ->
  eqb (rd e (m - 1)) (of_Z 0) = true ->
  isFinite (rd (fst (ld_step R (a, e) m)) m) = false.
Proof.
  intros Hm He. unfold ld_step; cbn [fst snd].
  rewrite inner_update_other by (rewrite in_seq; lia).
  rewrite rd_upd_eq by lia.
  apply div_zero_not_finite, He.
Qed.

(** A later step writes slot [m' <> i] and adds to the other slots. *)
Lemma ld_step_not_finite (R : list T) (st : list T * list T) (m' i : nat) :
  m' <> i ->
  isFinite (rd (fst st) i) = false ->
  isFinite (rd (fst (ld_step R st m')) i) = false.
Proof.
  destruct st as [a e]; intros Hm Ha. unfold ld_step; cbn [fst snd] in *.
  apply inner_update_not_finite. rewrite rd_upd_neq by exact Hm. exact Ha.
Qed.

Lemma ld_run_length (R : list T) (steps : list nat) (st : list T * list T) :
  length (fst (fold_left (ld_step R) steps st)) = length (fst st).
Proof.
  revert st; induction steps as [ | m steps IH ]; intros st; simpl; auto.
  rewrite IH. apply ld_step_length.
Qed.

Lemma levinsonDurbin_length (R : list T) (order : nat) :
  length (levinsonDurbin R order) = order + 1.
Proof.
  unfold levinsonDurbin, levinsonDurbin_state.
  rewrite ld_run_length; cbn [fst]. rewrite length_upd, repeat_length. reflexivity.
Qed.

Lemma levinsonDurbin_zero_energy_generic (R : list T) (order m : nat) :
  1 <= m <= order ->
  eqb (rd (levinsonDurbin_energy R order) (m - 1)) (of_Z 0) = true ->
  isFinite (rd (levinsonDurbin R order) m) = false.
Proof.
  intros Hm. unfold levinsonDurbin_energy, levinsonDurbin, levinsonDurbin_state.
  set (init := (upd 0 (of_Z 1) (repeat (of_Z 0) (order + 1)),
                upd 0 (rd R 0) (repeat (of_Z 0) (order + 1)))).
  assert (Hseq : seq 1 order = seq 1 (m - 1) ++ m :: seq (S m) (order - m)).
  { replace order with ((m - 1) + (1 + (order - m))) at 1 by lia.
    rewrite seq_app. replace (1 + (m - 1)) with m by lia. reflexivity. }
  rewrite Hseq, fold_left_app.
  set (st1 := fold_left (ld_step R) (seq 1 (m - 1)) init).
  cbn [fold_left].
  intros He.
  assert (Hlen : length (fst st1) = order + 1).
  { unfold st1. rewrite ld_run_length. unfold init; cbn [fst].
    rewrite length_upd, repeat_length. reflexivity. }
  assert (He1 : eqb (rd (snd st1) (m - 1)) (of_Z 0) = true).
  { rewrite <- He. f_equal.
    symmetry.
    apply (@fold_left_invariant _ _
             (fun st => rd (snd st) (m - 1) = rd (snd st1) (m - 1))
             (fun j => m - 1 <> j)).
    - intros s j Hj Hs. rewrite ld_step_energy_other by lia. exact Hs.
    - apply Forall_seq. intros; lia.
    - rewrite ld_step_energy_other by lia. reflexivity. }
  apply (@fold_left_invariant _ _
           (fun st => isFinite (rd (fst st) m) = false) (fun j => j <> m)).
  - intros s j Hj Hs. apply ld_step_not_finite; assumption.
  - apply Forall_seq. intros; lia.
  - destruct st1 as [a e]. apply ld_step_zero_energy; cbn [fst snd] in *; [ lia | exact He1 ].
Qed.

End ZeroEnergy.

(** C4, as the code has it: in binary64, for every autocorrelation vector
    and order, [levinsonDurbin] returns a vector of [order + 1]
    coefficients --- no failure is raised --- and when the energy
    [e[m - 1]] read at step [m] is zero, the coefficient in slot [m] of the
    returned vector is not finite (NaN or an infinity). *)
Theorem levinsonDurbin_zero_energy (R : list float) (order : nat) :
  length (levinsonDurbin R order) = order + 1
  /\ forall m,
       1 <= m <= order ->
       eqb (rd (levinsonDurbin_energy R order) (m - 1)) (of_Z 0) = true ->
       isFinite (rd (levinsonDurbin R order) m) = false.
Proof.
  split.
  - apply levinsonDurbin_length.
  - intros m Hm He. apply levinsonDurbin_zero_energy_generic; assumption.
Qed.

(** The statement at the autocorrelation [0, 0] of a silent frame. *)
Lemma levinsonDurbin_zero_energy_witness :
  length (levinsonDurbin (floats [0; 0]%Z) 1) = 1 + 1
  /\ isFinite (rd (levinsonDurbin (floats [0; 0]%Z) 1) 1) = false.
Proof.
  split.
  - apply (proj1 (@levinsonDurbin_zero_energy (floats [0; 0]%Z) 1)).
  - apply (proj2 (@levinsonDurbin_zero_energy (floats [0; 0]%Z) 1) 1).
    + lia.
    + vm_compute; reflexivity.
Defined.

(** C4, the claim on the code: a silent frame has the autocorrelation
    [0, 0]; its energy [e[0]] is zero, and the call returns the vector
    [1, NaN]. *)
Lemma levinsonDurbin_returns_nan :
  eqb (rd (levinsonDurbin_energy (floats [0; 0]%Z) 1) 0) (of_Z 0) = true
  /\ levinsonDurbin (floats [0; 0]%Z) 1 = [of_Z 1; nan].
Proof.
  split; vm_compute; reflexivity.
Qed.

(** ** Resampler: lengths *)

(** C5, the claim on the code: three samples at 16 kHz come back as four,
    in binary64 and in exact arithmetic. *)
Lemma resample_there_and_back_odd :
  resample_there_and_back (floats [1; 2; 3]%Z) (of_Z 16000)
  = Ok (floats [1; 2; 3; 3]%Z)
  /\ resample_there_and_back (xrats [1; 2; 3]%Z) (of_Z 16000)
     = Ok (xrats [1; 2; 3; 3]%Z)
  /\ length (floats [1; 2; 3; 3]%Z) <> length (floats [1; 2; 3]%Z).
Proof.
  repeat split; try (vm_compute; reflexivity).
  cbn; lia.
Qed.

Lemma Qceiling_unique (x : Q) (z : Z) :
  (inject_Z z - 1 < x)%Q -> (x <= inject_Z z)%Q -> Qceiling x = z.
Proof.
  intros Hlo Hhi.
  pose proof (Qle_ceiling x) as H1. pose proof (Qceiling_lt x) as H2.
  assert (Ha : (inject_Z (Qceiling x - 1) < inject_Z z)%Q)
    by (eapply Qlt_le_trans; eauto).
  assert (Hb : (inject_Z (z - 1) < inject_Z (Qceiling x))%Q).
  { eapply Qlt_le_trans; [ | exact H1 ].
    unfold Zminus. rewrite inject_Z_plus. exact Hlo. }
  rewrite <- Zlt_Qlt in Ha, Hb. lia.
Qed.

(** In exact arithmetic, with a positive finite ratio, the array
    [resample] allocates has [ceil(len / ratio)] slots. *)
Lemma resample_length_exact (signal : list xrat) (r : Q) (z : Z) :
  (0 < r)%Q ->
  Qceiling (inject_Z (Z.of_nat (length signal)) / r) = z ->
  (z < 2 ^ 53)%Z ->
  array_length (resample_newLength (length signal) (XFin r)) = Ok (Z.to_nat z).
Proof.
  intros Hr Hz Hbound.
  unfold resample_newLength, of_nat.
  cbn [div of_Z number_arith xrat_Number xrat_Arith xdiv Math_ceil xround].
  assert (Hnz : Qzero_b r = false).
  { unfold Qzero_b. destruct (Qeq_bool r 0) eqn:E; auto.
    apply Qeq_bool_eq in E. rewrite E in Hr. discriminate. }
  rewrite Hnz. cbn [xround].
  rewrite (Qceiling_comp _ _ (Qred_correct _)), Hz.
  assert (Hz0 : (0 <= z)%Z).
  { rewrite <- Hz. change 0%Z with (Qceiling (inject_Z 0)).
    apply Qceiling_resp_le.
    apply Qle_shift_div_l; [ exact Hr | ].
    rewrite Qmult_0_l. change 0%Q with (inject_Z 0).
    rewrite <- Zle_Qle. lia. }
  unfold array_length.
  cbn [eqb xrat_Number xeqb truncate xtruncate of_Z number_arith xrat_Arith].
  rewrite Qeq_bool_refl.
  assert (Hneg : Qneg_b (inject_Z z) = false).
  { unfold Qneg_b. apply negb_false_iff, Qle_bool_iff.
    change 0%Q with (inject_Z 0). rewrite <- Zle_Qle. exact Hz0. }
  rewrite Hneg, Qfloor_Z.
  assert (Hz0' : (z <? 0)%Z = false) by (apply Z.ltb_ge; exact Hz0).
  assert (Hb' : (2 ^ 53 <=? z)%Z = false) by (apply Z.leb_gt; exact Hbound).
  rewrite Hz0', Hb'. reflexivity.
Qed.

Lemma Qpos_neq0 (q : Q) : (0 < q)%Q -> ~ (q == 0)%Q.
Proof. intros Hq E. rewrite E in Hq. discriminate. Qed.

Lemma xdiv_fin (a b : Q) :
  ~ (b == 0)%Q -> xdiv (XFin a) (XFin b) = XFin (Qred (a / b)).
Proof.
  intros Hb. cbn [xdiv].
  unfold Qzero_b. destruct (Qeq_bool b 0) eqn:E; auto.
  apply Qeq_bool_eq in E. contradiction.
Qed.

(** In exact arithmetic and for positive finite rates, [resample] returns
    an array of [ceil(len / (oldFs / newFs))] samples. *)
Lemma resample_exact (signal : list xrat) (oldFs newFs : Q) (z : Z) :
  (0 < oldFs)%Q -> (0 < newFs)%Q ->
  Qceiling (inject_Z (Z.of_nat (length signal)) / (oldFs / newFs)) = z ->
  (z < 2 ^ 53)%Z ->
  exists output,
    resample signal (XFin oldFs) (XFin newFs) = Ok output
    /\ length output = Z.to_nat z.
Proof.
  intros Ho Hn Hz Hbound. unfold resample.
  cbn [div number_arith xrat_Number xrat_Arith].
  rewrite xdiv_fin by (apply Qpos_neq0, Hn).
  assert (Hr : (0 < Qred (oldFs / newFs))%Q).
  { rewrite Qred_correct. apply Qlt_shift_div_l; [ exact Hn | ].
    rewrite Qmult_0_l. exact Ho. }
  rewrite (@resample_length_exact signal _ z); auto.
  - cbn [bind]. eexists; split; [ reflexivity | ].
    rewrite length_map, length_seq. reflexivity.
  - rewrite <- Hz. apply Qceiling_comp. rewrite Qred_correct. reflexivity.
Qed.

Lemma Qceiling_half (n : Z) :
  Qceiling (inject_Z n / 2) = ((n + 1) / 2)%Z.
Proof.
  apply Qceiling_unique.
  - assert (H : (2 * ((n + 1) / 2) - 2 < n)%Z)
      by (Z.div_mod_to_equations; lia).
    rewrite Zlt_Qlt in H. unfold Zminus in H.
    rewrite inject_Z_plus, inject_Z_mult in H.
    change (inject_Z 2) with 2%Q in H. change (inject_Z (- (2))) with (- (2))%Q in H.
    unfold Qdiv. change (/ 2)%Q with (1 # 2)%Q. Lqa.lra.
  - assert (H : (n <= 2 * ((n + 1) / 2))%Z)
      by (Z.div_mod_to_equations; lia).
    rewrite Zle_Qle in H. rewrite inject_Z_mult in H.
    change (inject_Z 2) with 2%Q in H.
    unfold Qdiv. change (/ 2)%Q with (1 # 2)%Q. Lqa.lra.
Qed.

Lemma Qceiling_double (n : Z) :
  Qceiling (inject_Z n / (1 # 2)) = (2 * n)%Z.
Proof.
  apply Qceiling_unique; rewrite inject_Z_mult; change (inject_Z 2) with 2%Q;
    unfold Qdiv; change (/ (1 # 2))%Q with 2%Q; Lqa.lra.
Qed.

(** C5, as the code has it: in exact arithmetic, for every signal [x] and
    positive finite rate [fs], halving the rate and restoring it returns
    [2 * ceil(len(x) / 2)] samples: as many as [x] has when its length is
    even, one more when it is odd.  (Each call allocates
    [ceil(len / ratio)] samples, see [resample_exact].) *)
Theorem resample_there_and_back_length (x : list xrat) (fs : Q) :
  (0 < fs)%Q ->
  (Z.of_nat (length x) + 1 < 2 ^ 53)%Z ->
  exists y,
    resample_there_and_back x (XFin fs) = Ok y
    /\ length y = length x + length x mod 2.
Proof.
  intros Hfs Hbound. unfold resample_there_and_back.
  cbn [div of_Z number_arith xrat_Number xrat_Arith].
  change (inject_Z 2) with 2%Q.
  rewrite (@xdiv_fin fs 2) by discriminate.
  assert (Hh : (Qred (fs / 2) == fs / 2)%Q) by apply Qred_correct.
  assert (Hh0 : (0 < Qred (fs / 2))%Q).
  { rewrite Hh. unfold Qdiv. change (/ 2)%Q with (1 # 2)%Q. Lqa.lra. }
  destruct (@resample_exact x fs (Qred (fs / 2)) ((Z.of_nat (length x) + 1) / 2))
    as [half [Ehalf Lhalf]]; auto.
  { rewrite <- Qceiling_half. apply Qceiling_comp. rewrite Hh. field.
    apply Qpos_neq0, Hfs. }
  { change (2 ^ 53)%Z with 9007199254740992%Z in *.
    Z.div_mod_to_equations; lia. }
  rewrite Ehalf. cbn [bind].
  destruct (@resample_exact half (Qred (fs / 2)) fs (2 * Z.of_nat (length half)))
    as [y [Ey Ly]]; auto.
  { rewrite <- Qceiling_double. apply Qceiling_comp. rewrite Hh. field.
    apply Qpos_neq0, Hfs. }
  { rewrite Lhalf. change (2 ^ 53)%Z with 9007199254740992%Z in *.
    Z.div_mod_to_equations; lia. }
  exists y; split; [ exact Ey | ].
  rewrite Ly, Lhalf.
  pose proof (Nat.div_mod_eq (length x) 2) as Hdm.
  pose proof (Nat.mod_upper_bound (length x) 2) as Hmod.
  Z.div_mod_to_equations; lia.
Qed.

(** The statement at three samples and 16 kHz. *)
Lemma resample_there_and_back_length_witness :
  exists y,
    resample_there_and_back (xrats [1; 2; 3]%Z) (XFin 16000) = Ok y
    /\ length y = length (xrats [1; 2; 3]%Z) + length (xrats [1; 2; 3]%Z) mod 2.
Proof.
  apply (@resample_there_and_back_length (xrats [1; 2; 3]%Z) 16000).
  - reflexivity.
  - vm_compute; reflexivity.
Defined.

(** ** Pitch detector: degenerate lag windows *)

(** C6, the claim on the code: one sample at 16 kHz with the band
    80..300 Hz.  The window starts at lag 53, beyond the signal; the call
    returns the Number [16000 / 53]. *)
Lemma pitchDetection_window_beyond_signal :
  Math_floor (div (of_Z 16000) (of_Z 300) : float) = of_Z 53
  /\ pitchDetectionAutocorr 200 (floats [1]%Z) (of_Z 16000) (of_Z 80) (of_Z 300)
     = Some (div (of_Z 16000) (of_Z 53)).
Proof.
  split; vm_compute; reflexivity.
Qed.

(** A scan whose maximum is still [undefined] never replaces it: every
    comparison with [undefined] is false. *)
Lemma pitch_scan_undefined (fuel : nat) (normalized : list xrat)
  (maxLag i peakLag : xrat) (r : option xrat * xrat) :
  pitch_scan fuel normalized maxLag i None peakLag = Some r ->
  r = (None, peakLag).
Proof.
  revert i; induction fuel as [ | fuel IH ]; intros i; cbn [pitch_scan].
  - discriminate.
  - destruct (ltb i maxLag).
    + cbn [ToNumber ltb xrat_Number xltb nan]. apply IH.
    + intros E; injection E as <-; reflexivity.
Qed.

(** In exact arithmetic the scan ends: the counter gains one at every
    turn and [maxLag] is finite. *)
Lemma pitch_scan_terminates (normalized : list xrat) (b : Q) (n : nat) :
  forall (q : Q) (maxVal : option xrat) (peakLag : xrat),
    (b - q <= inject_Z (Z.of_nat n))%Q ->
    exists r, pitch_scan (S n) normalized (XFin b) (XFin q) maxVal peakLag = Some r.
Proof.
  induction n as [ | n IH ]; intros q maxVal peakLag Hn.
  - cbn [pitch_scan]. cbn [ltb xrat_Number xltb].
    assert (Hle : Qle_bool b q = true).
    { apply Qle_bool_iff. change (inject_Z (Z.of_nat 0)) with 0%Q in Hn.
      Lqa.lra. }
    rewrite Hle. cbn [negb]. eauto.
  - cbn [pitch_scan]. cbn [ltb xrat_Number xltb].
    destruct (Qle_bool b q) eqn:Hle; cbn [negb]; [ eauto | ].
    assert (Hn' : (b - Qred (q + inject_Z 1) <= inject_Z (Z.of_nat n))%Q).
    { rewrite Qred_correct. rewrite Nat2Z.inj_succ in Hn. unfold Z.succ in Hn.
      rewrite inject_Z_plus in Hn. Lqa.lra. }
    cbn [add of_Z number_arith xrat_Arith xadd].
    destruct (xltb (ToNumber maxVal) (ToNumber (aget normalized (XFin q))));
      apply IH; exact Hn'.
Qed.

Lemma aget_beyond (a : list xrat) (z : Z) :
  (Z.of_nat (length a) <= z)%Z -> aget a (XFin (inject_Z z)) = None.
Proof.
  intros Hz. unfold aget.
  cbn [truncate xrat_Number xtruncate].
  assert (Hneg : Qneg_b (inject_Z z) = false).
  { unfold Qneg_b. apply negb_false_iff, Qle_bool_iff.
    change 0%Q with (inject_Z 0). rewrite <- Zle_Qle. lia. }
  rewrite Hneg, Qfloor_Z.
  destruct (eqb (XFin (inject_Z z)) (of_Z z) && (0 <=? z)%Z); auto.
  apply nth_error_None. lia.
Qed.

Lemma Math_floor_xdiv (a b : Q) :
  (0 < b)%Q ->
  Math_floor (div (XFin a) (XFin b)) = XFin (inject_Z (Qfloor (a / b))).
Proof.
  intros Hb. cbn [div Math_floor number_arith xrat_Number xrat_Arith].
  rewrite xdiv_fin by (apply Qpos_neq0, Hb). cbn [xround].
  rewrite (Qfloor_comp _ _ (Qred_correct _)). reflexivity.
Qed.

(** C6, as the code has it: in exact arithmetic, for positive finite [fs],
    [minFreq] and [maxFreq], the call returns a Number for every signal
    and raises nothing.  When the start lag [floor(fs / maxFreq)] lies
    beyond a signal that is not silent, the Number is [fs] over that lag;
    when the window holds no lag after its start, it is 0 or [fs] over
    the start lag. *)
Theorem pitchDetection_returns (signal : list xrat) (fs minFreq maxFreq : Q) :
  (0 < fs)%Q -> (0 < minFreq)%Q -> (0 < maxFreq)%Q ->
  exists fuel v,
    pitchDetectionAutocorr fuel signal (XFin fs) (XFin minFreq) (XFin maxFreq)
    = Some v
    /\ ((Z.of_nat (length signal) <= Qfloor (fs / maxFreq))%Z ->
        eqb (Math_max (autocorr signal)) (of_Z 0) = false ->
        v = div (XFin fs) (XFin (inject_Z (Qfloor (fs / maxFreq)))))
    /\ ((Qfloor (fs / minFreq) <= Qfloor (fs / maxFreq) + 1)%Z ->
        v = of_Z 0
        \/ v = div (XFin fs) (XFin (inject_Z (Qfloor (fs / maxFreq))))).
Proof.
  intros Hfs Hmin Hmax. unfold pitchDetectionAutocorr.
  rewrite !Math_floor_xdiv by assumption.
  set (a := Qfloor (fs / maxFreq)). set (b := Qfloor (fs / minFreq)).
  destruct (eqb (Math_max (autocorr signal)) (of_Z 0)) eqn:Hsilent.
  - exists 0, (of_Z 0). repeat split; auto. discriminate.
  - set (normalized := map (fun v => div v (Math_max (autocorr signal)))
                           (autocorr signal)).
    set (start := add (XFin (inject_Z a)) (of_Z 1)).
    assert (Hstart : exists q, start = XFin q /\ (q == inject_Z a + 1)%Q).
    { eexists; split; [ reflexivity | ]. rewrite Qred_correct. reflexivity. }
    destruct Hstart as [q [Eq Hq]]. rewrite Eq.
    destruct (@pitch_scan_terminates normalized (inject_Z b) (Z.to_nat (b - a)) q
                (aget normalized (XFin (inject_Z a))) (XFin (inject_Z a)))
      as [[maxVal peakLag] Hscan].
    { rewrite Hq. destruct (Z.le_gt_cases 0 (b - a)) as [ Hba | Hba ].
      - rewrite Z2Nat.id by exact Hba. unfold Zminus.
        rewrite inject_Z_plus, inject_Z_opp. Lqa.lra.
      - replace (Z.to_nat (b - a)) with 0%nat by lia.
        assert (H : (inject_Z b < inject_Z a)%Q) by (rewrite <- Zlt_Qlt; lia).
        change (inject_Z (Z.of_nat 0)) with 0%Q. Lqa.lra. }
    exists (S (Z.to_nat (b - a))).
    exists (if ltb (ToNumber maxVal) (div (of_Z 1) (of_Z 2)) then of_Z 0
            else div (XFin fs) peakLag).
    rewrite Hscan. split; [ destruct (ltb _ _); reflexivity | ]. split.
    + intros Hlen _.
      assert (Hout : aget normalized (XFin (inject_Z a)) = None).
      { apply aget_beyond. unfold normalized.
        rewrite length_map. unfold autocorr. rewrite length_map, length_seq.
        exact Hlen. }
      rewrite Hout in Hscan. apply pitch_scan_undefined in Hscan.
      injection Hscan as -> ->. reflexivity.
    + intros Hempty.
      cbn [pitch_scan] in Hscan.
      assert (Hstop : ltb (XFin q) (XFin (inject_Z b)) = false).
      { cbn [ltb xrat_Number xltb]. apply negb_false_iff, Qle_bool_iff.
        rewrite Hq. rewrite Zle_Qle in Hempty. rewrite inject_Z_plus in Hempty.
        exact Hempty. }
      rewrite Hstop in Hscan. injection Hscan as <- <-.
      match goal with |- context [ if ?c then _ else _ ] => destruct c end; auto.
Qed.

(** The statement at one sample, 16 kHz and the band 80..300 Hz. *)
Lemma pitchDetection_returns_witness :
  exists fuel v,
    pitchDetectionAutocorr fuel (xrats [1]%Z) (XFin 16000) (XFin 80) (XFin 300)
    = Some v
    /\ ((Z.of_nat (length (xrats [1]%Z)) <= Qfloor (16000 / 300))%Z ->
        eqb (Math_max (autocorr (xrats [1]%Z))) (of_Z 0) = false ->
        v = div (XFin 16000) (XFin (inject_Z (Qfloor (16000 / 300)))))
    /\ ((Qfloor (16000 / 80) <= Qfloor (16000 / 300) + 1)%Z ->
        v = of_Z 0
        \/ v = div (XFin 16000) (XFin (inject_Z (Qfloor (16000 / 300))))).
Proof.
  apply (@pitchDetection_returns (xrats [1]%Z) 16000 80 300); reflexivity.
Defined.

(** ** Finite values in exact arithmetic *)

Lemma xrat_is_fin (q : Q) : xrat_is (XFin q) q.
Proof. exists q; split; reflexivity. Qed.

Lemma xrat_is_of_Z (z : Z) : xrat_is (of_Z z) (inject_Z z).
Proof. apply xrat_is_fin. Qed.

Lemma xrat_is_add (x y : xrat) (a b : Q) :
  xrat_is x a -> xrat_is y b -> xrat_is (add x y) (a + b).
Proof.
  intros [a' [-> Ha]] [b' [-> Hb]]. eexists; split; [ reflexivity | ].
  rewrite Qred_correct, Ha, Hb. reflexivity.
Qed.

Lemma xrat_is_sub (x y : xrat) (a b : Q) :
  xrat_is x a -> xrat_is y b -> xrat_is (sub x y) (a - b).
Proof.
  intros [a' [-> Ha]] [b' [-> Hb]]. eexists; split; [ reflexivity | ].
  rewrite !Qred_correct, Ha, Hb. reflexivity.
Qed.

Lemma xrat_is_mul (x y : xrat) (a b : Q) :
  xrat_is x a -> xrat_is y b -> xrat_is (mul x y) (a * b).
Proof.
  intros [a' [-> Ha]] [b' [-> Hb]]. eexists; split; [ reflexivity | ].
  rewrite Qred_correct, Ha, Hb. reflexivity.
Qed.

Lemma xrat_is_div (x y : xrat) (a b : Q) :
  ~ (b == 0)%Q -> xrat_is x a -> xrat_is y b -> xrat_is (div x y) (a / b).
Proof.
  intros Hb0 [a' [-> Ha]] [b' [-> Hb]].
  cbn [div number_arith xrat_Number xrat_Arith].
  rewrite xdiv_fin by (rewrite Hb; exact Hb0).
  eexists; split; [ reflexivity | ].
  rewrite Qred_correct, Ha, Hb. reflexivity.
Qed.

Lemma xrat_is_ltb (x y : xrat) (a b : Q) :
  xrat_is x a -> xrat_is y b -> (ltb x y = true <-> (a < b)%Q).
Proof.
  intros [a' [-> Ha]] [b' [-> Hb]]. cbn [ltb xrat_Number xltb].
  rewrite negb_true_iff, <- not_true_iff_false, Qle_bool_iff, Ha, Hb.
  split; [ apply Qnot_le_lt | apply Qlt_not_le ].
Qed.

Lemma xrat_is_rd (l : list Q) (i : nat) :
  i < length l -> xrat_is (rd (map XFin l) i) (nth i l 0%Q).
Proof.
  intros Hi. unfold rd.
  rewrite (nth_indep _ nan (XFin 0)) by (rewrite length_map; exact Hi).
  rewrite (map_nth XFin l 0%Q i). apply xrat_is_fin.
Qed.

(** A loop that adds one term per index computes the sum of the terms. *)
Lemma xrat_is_fold_add (t : nat -> xrat) (g : nat -> Q) (D : nat)
  (acc : xrat) (a : Q) :
  xrat_is acc a ->
  (forall d, d < D -> xrat_is (t d) (g d)) ->
  xrat_is (fold_left (fun s d => add s (t d)) (seq 0 D) acc) (a + Qsum g D).
Proof.
  intros Hacc. induction D as [ | D IH ]; intros Ht.
  - cbn [seq fold_left Qsum]. destruct Hacc as [a' [-> Ha]].
    exists a'; split; [ reflexivity | ]. rewrite Ha. ring.
  - rewrite seq_S, fold_left_app. cbn [fold_left Qsum Nat.add].
    destruct (xrat_is_add (IH (fun d Hd => Ht d (Nat.lt_lt_succ_r _ _ Hd)))
                          (Ht D (Nat.lt_succ_diag_r D))) as [q [E Hq]].
    exists q; split; [ exact E | ]. rewrite Hq. ring.
Qed.

(** ** Vector quantizer: the search on computed distances *)

Lemma SFltb_key (x y : spec_float) : SFltb x y = true <-> SF_lt x y.
Proof.
  unfold SFltb, SF_lt, key_lt.
  destruct x as [ sx | sx | | sx mx ex ]; destruct y as [ sy | sy | | sy my ey ];
    try destruct sx; try destruct sy; cbn [SFcompare SF_key];
    try (split; [ intros Hd; try discriminate Hd; lia
                | intros Hk; try reflexivity; try contradiction; lia ]).
  - change (PosDef.Pos.compare_cont Eq mx my) with (Pos.compare mx my).
    destruct (Z.compare_spec ex ey); destruct (Pos.compare_spec mx my);
      cbn [CompOpp]; split; intros Hh; try discriminate Hh; try reflexivity; lia.
  - change (PosDef.Pos.compare_cont Eq mx my) with (Pos.compare mx my).
    destruct (Z.compare_spec ex ey); destruct (Pos.compare_spec mx my);
      split; intros Hh; try discriminate Hh; try reflexivity; lia.
Qed.

Lemma SFeqb_key (x : spec_float) : SFeqb x x = true <-> SF_key x <> None.
Proof.
  unfold SFeqb.
  destruct x as [ sx | sx | | sx mx ex ]; try destruct sx;
    cbn [SFcompare SF_key]; try (split; [ discriminate | reflexivity ]);
    try (split; [ discriminate | congruence ]).
  - change (PosDef.Pos.compare_cont Eq mx mx) with (Pos.compare mx mx).
    rewrite Z.compare_refl, Pos.compare_refl. cbn [CompOpp].
    split; [ discriminate | reflexivity ].
  - change (PosDef.Pos.compare_cont Eq mx mx) with (Pos.compare mx mx).
    rewrite Z.compare_refl, Pos.compare_refl.
    split; [ discriminate | reflexivity ].
Qed.

Lemma float_ltb_key (x y : float) :
  ltb x y = true <-> SF_lt (Prim2SF x) (Prim2SF y).
Proof.
  cbn [ltb float_Number]. rewrite FloatAxioms.ltb_spec. apply SFltb_key.
Qed.

#[export] Instance float_OrderLaws : OrderLaws float.
Proof.
  split.
  - intros x. apply not_true_iff_false. rewrite float_ltb_key.
    unfold SF_lt, key_lt. destruct (SF_key (Prim2SF x)) as [ [ [ a b ] c ] | ];
      [ lia | tauto ].
  - intros x y z. rewrite !float_ltb_key. unfold SF_lt, key_lt.
    destruct (SF_key (Prim2SF x)) as [ [ [ a1 a2 ] a3 ] | ];
      destruct (SF_key (Prim2SF y)) as [ [ [ b1 b2 ] b3 ] | ];
      destruct (SF_key (Prim2SF z)) as [ [ [ c1 c2 ] c3 ] | ];
      try tauto; lia.
  - intros x y z Hxz Hyz Hy. apply not_true_iff_false in Hyz.
    rewrite float_ltb_key in *.
    cbn [eqb float_Number] in Hy. rewrite FloatAxioms.eqb_spec in Hy. apply SFeqb_key in Hy.
    unfold SF_lt, key_lt in *.
    destruct (SF_key (Prim2SF x)) as [ [ [ a1 a2 ] a3 ] | ];
      destruct (SF_key (Prim2SF y)) as [ [ [ b1 b2 ] b3 ] | ];
      destruct (SF_key (Prim2SF z)) as [ [ [ c1 c2 ] c3 ] | ];
      try tauto; try congruence; lia.
  - intros x y. cbn [ltb infinity float_Number]. rewrite !FloatAxioms.ltb_spec.
    change (Prim2SF PrimFloat.infinity) with (S754_infinity false).
    unfold SFltb.
    destruct (Prim2SF x) as [ sx | sx | | sx mx ex ];
      destruct (Prim2SF y) as [ sy | sy | | sy my ey ];
      try destruct sx; try destruct sy; cbn [SFcompare];
      intros Hx Hy; try discriminate Hx; try discriminate Hy; reflexivity.
Qed.

Section ComputedNearest.
Context {T : Type} {N : Number T} {O : OrderLaws T}.

(** The search loop over [n] computed distances: no distance seen is
    below the recorded one; the recorded one is [Infinity] with index 0
    while nothing was below it, and the distance of the recorded index
    afterwards; every earlier distance that is not NaN is above it. *)
Lemma nearest_loop_computed (d : nat -> T) (n : nat) :
  let best := fold_left (fun '(minDist, minIdx) k =>
                           if ltb (d k) minDist then (d k, k)
                           else (minDist, minIdx))
                        (seq 0 n) (infinity, 0) in
  (forall j, j < n -> ltb (d j) (fst best) = false)
  /\ ((snd best = 0 /\ fst best = infinity)
      \/ (snd best < n /\ fst best = d (snd best)))
  /\ (forall j, j < snd best -> eqb (d j) (d j) = true ->
        ltb (fst best) (d j) = true).
Proof.
  induction n as [ | n IH ].
  - cbn [seq fold_left fst snd]. repeat split; try lia. left; auto.
  - rewrite seq_S, fold_left_app. cbn [fold_left Nat.add].
    cbv zeta in IH.
    destruct (fold_left _ (seq 0 n) (infinity, 0)) as [ minDist minIdx ].
    cbn [fst snd] in IH. destruct IH as (Hlow & Hrec & Hfirst).
    destruct (ltb (d n) minDist) eqn:Hlt; cbn [fst snd].
    + repeat split.
      * intros j Hj. destruct (Nat.eq_dec j n) as [ -> | Hne ].
        -- apply ltb_irreflexive.
        -- destruct (ltb (d j) (d n)) eqn:Hjn; [ | reflexivity ].
           pose proof (ltb_transitive _ _ _ Hjn Hlt) as Ht.
           rewrite Hlow in Ht by lia. discriminate Ht.
      * right. split; [ lia | reflexivity ].
      * intros j Hj Hnan.
        apply (ltb_not_below _ _ _ Hlt); [ apply Hlow; lia | exact Hnan ].
    + repeat split.
      * intros j Hj. destruct (Nat.eq_dec j n) as [ -> | Hne ];
          [ exact Hlt | apply Hlow; lia ].
      * destruct Hrec as [ Hrec | [ Hidx Hrec ] ]; [ left; exact Hrec | ].
        right. split; [ lia | exact Hrec ].
      * exact Hfirst.
Qed.

Lemma nearest_computed (D : nat) (codebook : list (list T)) (feature : list T) :
  let d k := sqdist D feature (nth k codebook []) in
  let idx := nearest D codebook feature in
  (codebook <> [] -> idx < length codebook)
  /\ forall k, k < length codebook ->
       ltb (d k) (d idx) = false
       /\ (k < idx -> eqb (d k) (d k) = true -> ltb (d idx) (d k) = true).
Proof.
  intros d idx. subst idx. unfold nearest.
  destruct (nearest_loop_computed d (length codebook)) as (Hlow & Hrec & Hfirst).
  cbv zeta in Hlow, Hrec, Hfirst. fold d.
  change (fun '(minDist, minIdx) k =>
            let dist := d k in
            if ltb dist minDist then (dist, k) else (minDist, minIdx))
    with (fun '(minDist, minIdx) k =>
            if ltb (d k) minDist then (d k, k) else (minDist, minIdx)).
  destruct (fold_left _ (seq 0 (length codebook)) (infinity, 0))
    as [ minDist minIdx ].
  cbn [fst snd] in *. split.
  - intros Hne.
    destruct Hrec as [ [ -> _ ] | [ Hidx _ ] ]; [ | exact Hidx ].
    destruct codebook; [ congruence | cbn; lia ].
  - intros k Hk.
    destruct Hrec as [ [ -> -> ] | [ Hidx -> ] ].
    + split; [ | lia ].
      apply ltb_infinity; apply Hlow; lia.
    + split; [ apply Hlow; exact Hk | apply Hfirst ].
Qed.

End ComputedNearest.

(** ** Vector quantizer: the nearest codeword *)

Lemma sqdist_exact (f c : list Q) :
  length f <= length c ->
  xrat_is (sqdist (length f) (map XFin f) (map XFin c)) (Qsqdist f c).
Proof.
  intros Hlen. unfold sqdist, Qsqdist.
  destruct (@xrat_is_fold_add
              (fun d => sq (sub (rd (map XFin f) d) (rd (map XFin c) d)))
              (fun d => (nth d f 0 - nth d c 0) * (nth d f 0 - nth d c 0))%Q
              (length f) (of_Z 0) 0%Q) as [q [E Hq]].
  - apply xrat_is_of_Z.
  - intros d Hd. unfold sq.
    apply xrat_is_mul; apply xrat_is_sub; apply xrat_is_rd; lia.
  - exists q; split; [ exact E | ]. rewrite Hq. ring.
Qed.

(** The search loop over [n] distances: once a codeword has been seen, the
    best index is among those seen, its distance is the recorded one, no
    seen codeword is nearer and every earlier one is strictly farther. *)
Lemma nearest_loop (dist : nat -> xrat) (q : nat -> Q) (n : nat) :
  (forall k, k < n -> xrat_is (dist k) (q k)) ->
  0 < n ->
  let best := fold_left (fun '(minDist, minIdx) k =>
                           if ltb (dist k) minDist then (dist k, k)
                           else (minDist, minIdx))
                        (seq 0 n) (infinity, 0) in
  snd best < n
  /\ fst best = dist (snd best)
  /\ (forall k, k < n -> (q (snd best) <= q k)%Q)
  /\ (forall k, k < snd best -> (q (snd best) < q k)%Q).
Proof.
  induction n as [ | n IH ]; intros Hq Hn; [ lia | ].
  rewrite seq_S, fold_left_app. cbn [fold_left Nat.add].
  destruct n as [ | n ].
  - cbn [seq fold_left].
    destruct (Hq 0 Hn) as [q0 [E0 _]]. rewrite E0.
    cbn [ltb xrat_Number xltb infinity negb fst snd].
    repeat split; try lia.
    + symmetry; exact E0.
    + intros k Hk. replace k with 0 by lia. apply Qle_refl.
  - specialize (IH (fun k Hk => Hq k (Nat.lt_lt_succ_r _ _ Hk)) (Nat.lt_0_succ n)).
    cbv zeta in IH.
    destruct (fold_left _ (seq 0 (S n)) (infinity, 0)) as [minDist minIdx].
    cbn [fst snd] in IH. destruct IH as [Hidx [Hdist [Hmin Hfirst]]].
    assert (Hbest : xrat_is minDist (q minIdx))
      by (rewrite Hdist; apply Hq; lia).
    destruct (ltb (dist (S n)) minDist) eqn:Hlt; cbn [fst snd].
    + apply (xrat_is_ltb (Hq (S n) (Nat.lt_succ_diag_r _)) Hbest) in Hlt.
      repeat split; try lia.
      * intros k Hk. destruct (Nat.eq_dec k (S n)) as [ -> | Hne ].
        -- apply Qle_refl.
        -- apply Qlt_le_weak. eapply Qlt_le_trans; [ exact Hlt | ].
           apply Hmin; lia.
      * intros k Hk. eapply Qlt_le_trans; [ exact Hlt | ]. apply Hmin; lia.
    + assert (Hge : (q minIdx <= q (S n))%Q).
      { apply Qnot_lt_le. intros Hc.
        apply (xrat_is_ltb (Hq (S n) (Nat.lt_succ_diag_r _)) Hbest) in Hc.
        congruence. }
      repeat split; try lia; auto.
      intros k Hk. destruct (Nat.eq_dec k (S n)) as [ -> | Hne ]; auto.
      apply Hmin; lia.
Qed.

Lemma nearest_exact (codebook : list (list Q)) (f : list Q) :
  codebook <> [] ->
  (forall c, In c codebook -> length c = length f) ->
  let idx := nearest (length f) (map (map XFin) codebook) (map XFin f) in
  idx < length codebook
  /\ forall k, k < length codebook ->
       (Qsqdist f (nth idx codebook []) <= Qsqdist f (nth k codebook []))%Q
       /\ (k < idx ->
           (Qsqdist f (nth idx codebook []) < Qsqdist f (nth k codebook []))%Q).
Proof.
  intros Hne Hdim. unfold nearest. rewrite length_map.
  destruct (@nearest_loop
              (fun k => sqdist (length f) (map XFin f)
                               (nth k (map (map XFin) codebook) []))
              (fun k => Qsqdist f (nth k codebook []))
              (length codebook)) as [Hidx [_ [Hmin Hfirst]]].
  - intros k Hk.
    change (@nil xrat) with (map XFin []). rewrite map_nth.
    apply sqdist_exact. rewrite (Hdim (nth k codebook [])); [ lia | ].
    apply nth_In; exact Hk.
  - destruct codebook; [ congruence | cbn; lia ].
  - split; [ exact Hidx | ]. intros k Hk. split; [ apply Hmin; exact Hk | ].
    apply Hfirst.
Qed.

(** C8, the claim on the code: in binary64 the search compares rounded
    sums.  For the feature vector [0, 0, 0] the codeword
    [10, 10, 2^30] is at the squared distance [2^60 + 200] and the
    codeword [2^30, 11, 11] at [2^60 + 242]; the sums the loop builds are
    [2^60 + 256] and [2^60], and the call returns the index 1 of the
    codeword that is farther.  Exact arithmetic returns 0. *)
Lemma vectorQuantization_rounding_reverses :
  vectorQuantization [floats [10; 10; 1073741824]%Z; floats [1073741824; 11; 11]%Z]
                     [floats [0; 0; 0]%Z] = [1]
  /\ vectorQuantization [xrats [10; 10; 1073741824]%Z; xrats [1073741824; 11; 11]%Z]
                        [xrats [0; 0; 0]%Z] = [0]
  /\ (Qsqdist (map inject_Z [0; 0; 0]%Z) (map inject_Z [10; 10; 1073741824]%Z)
      < Qsqdist (map inject_Z [0; 0; 0]%Z) (map inject_Z [1073741824; 11; 11]%Z))%Q
  /\ sqdist 3 (floats [0; 0; 0]%Z) (floats [10; 10; 1073741824]%Z)
     = of_Z (2 ^ 60 + 256)
  /\ sqdist 3 (floats [0; 0; 0]%Z) (floats [1073741824; 11; 11]%Z)
     = of_Z (2 ^ 60).
Proof.
  repeat split; vm_compute; reflexivity.
Qed.

(** C8, as the code has it.  On the codebook [[0], [10]] the features
    [1], [9] and [5] map to the indices 0, 1 and 0, in exact arithmetic
    and in binary64.  In binary64, for every non-empty codebook and every
    list of feature vectors, [vectorQuantization] returns for each
    feature vector an index below the codebook's size; no codeword has a
    computed squared distance below that of the codeword returned, and
    every codeword of a lower index has a computed squared distance that
    is above it or is NaN.  In exact arithmetic, for feature vectors of
    the codebook's dimension, the codeword returned is at the least
    squared Euclidean distance, every codeword of a lower index being
    strictly farther. *)
Theorem vectorQuantization_nearest :
  (vectorQuantization [xrats [0]%Z; xrats [10]%Z]
                      [xrats [1]%Z; xrats [9]%Z; xrats [5]%Z] = [0; 1; 0]
   /\ vectorQuantization [floats [0]%Z; floats [10]%Z]
                         [floats [1]%Z; floats [9]%Z; floats [5]%Z] = [0; 1; 0])
  /\ (forall codebook features : list (list float),
        codebook <> [] ->
        let indices := vectorQuantization codebook features in
        length indices = length features
        /\ forall i f,
             nth_error features i = Some f ->
             exists idx,
               nth_error indices i = Some idx
               /\ idx < length codebook
               /\ forall k, k < length codebook ->
                    let d j := sqdist (length f) f (nth j codebook []) in
                    ltb (d k) (d idx) = false
                    /\ (k < idx -> eqb (d k) (d k) = true ->
                        ltb (d idx) (d k) = true))
  /\ forall codebook features : list (list Q),
       codebook <> [] ->
       (forall c f, In c codebook -> In f features -> length c = length f) ->
       let indices := vectorQuantization (map (map XFin) codebook)
                                         (map (map XFin) features) in
       length indices = length features
       /\ forall i f,
            nth_error features i = Some f ->
            exists idx,
              nth_error indices i = Some idx
              /\ idx < length codebook
              /\ forall k, k < length codebook ->
                   (Qsqdist f (nth idx codebook []) <= Qsqdist f (nth k codebook []))%Q
                   /\ (k < idx ->
                       (Qsqdist f (nth idx codebook [])
                        < Qsqdist f (nth k codebook []))%Q).
Proof.
  split; [ split; vm_compute; reflexivity | ]. split.
  - intros codebook features Hne indices. subst indices.
    unfold vectorQuantization. rewrite length_map. split; [ reflexivity | ].
    intros i f Hf. rewrite nth_error_map, Hf. cbn [option_map].
    eexists; split; [ reflexivity | ].
    destruct (@nearest_computed float _ _ (length f) codebook f) as [ Hidx Hmin ].
    split; [ apply Hidx; exact Hne | exact Hmin ].
  - intros codebook features Hne Hdim indices. subst indices.
    unfold vectorQuantization. rewrite !length_map. split; [ reflexivity | ].
    intros i f Hf.
    rewrite map_map, nth_error_map, Hf. cbn [option_map].
    rewrite length_map.
    eexists; split; [ reflexivity | ].
    apply nearest_exact; [ exact Hne | ].
    intros c Hc. apply Hdim; [ exact Hc | ].
    eapply nth_error_In; exact Hf.
Qed.

(** The two general parts at the codebook and the features of the
    examples. *)
Lemma vectorQuantization_nearest_witness :
  (let indices := vectorQuantization [floats [0]%Z; floats [10]%Z]
                    [floats [1]%Z; floats [9]%Z; floats [5]%Z] in
   length indices = length [floats [1]%Z; floats [9]%Z; floats [5]%Z]
   /\ forall i f,
        nth_error [floats [1]%Z; floats [9]%Z; floats [5]%Z] i = Some f ->
        exists idx,
          nth_error indices i = Some idx
          /\ idx < length [floats [0]%Z; floats [10]%Z]
          /\ forall k, k < length [floats [0]%Z; floats [10]%Z] ->
               let d j := sqdist (length f) f
                                 (nth j [floats [0]%Z; floats [10]%Z] []) in
               ltb (d k) (d idx) = false
               /\ (k < idx -> eqb (d k) (d k) = true ->
                   ltb (d idx) (d k) = true))
  /\ (let indices := vectorQuantization (map (map XFin) [[0%Q]; [10%Q]])
                                        (map (map XFin) [[1%Q]; [9%Q]; [5%Q]]) in
      length indices = 3
      /\ forall i f,
           nth_error [[1%Q]; [9%Q]; [5%Q]] i = Some f ->
           exists idx,
             nth_error indices i = Some idx
             /\ idx < 2
             /\ forall k, k < 2 ->
                  (Qsqdist f (nth idx [[0%Q]; [10%Q]] [])
                   <= Qsqdist f (nth k [[0%Q]; [10%Q]] []))%Q
                  /\ (k < idx ->
                      (Qsqdist f (nth idx [[0%Q]; [10%Q]] [])
                       < Qsqdist f (nth k [[0%Q]; [10%Q]] []))%Q)).
Proof.
  split.
  - apply (proj1 (proj2 vectorQuantization_nearest)
             [floats [0]%Z; floats [10]%Z]
             [floats [1]%Z; floats [9]%Z; floats [5]%Z]).
    discriminate.
  - apply (proj2 (proj2 vectorQuantization_nearest)
             [[0%Q]; [10%Q]] [[1%Q]; [9%Q]; [5%Q]]).
    + discriminate.
    + intros c f [ <- | [ <- | [] ] ] [ <- | [ <- | [ <- | [] ] ] ]; reflexivity.
Defined.

(** ** Autocorrelation: the bound by the energy *)

Lemma Qsum_ext (g h : nat -> Q) (n : nat) :
  (forall i, i < n -> (g i == h i)%Q) -> (Qsum g n == Qsum h n)%Q.
Proof.
  induction n as [ | n IH ]; intros Hgh; cbn [Qsum]; [ reflexivity | ].
  rewrite IH, (Hgh n) by (intros; try apply Hgh; lia). reflexivity.
Qed.

Lemma Qsum_nonneg (g : nat -> Q) (n : nat) :
  (forall i, (0 <= g i)%Q) -> (0 <= Qsum g n)%Q.
Proof.
  intros Hg. induction n as [ | n IH ]; cbn [Qsum]; [ apply Qle_refl | ].
  pose proof (Hg n). Lqa.lra.
Qed.

(** The first [a] terms, then the [b] terms from index [a] on. *)
Lemma Qsum_split (g : nat -> Q) (a b : nat) :
  (Qsum g (a + b)%nat == Qsum g a + Qsum (fun i => g (a + i)%nat) b)%Q.
Proof.
  induction b as [ | b IH ].
  - rewrite Nat.add_0_r. cbn [Qsum]. ring.
  - rewrite Nat.add_succ_r. cbn [Qsum]. rewrite IH. ring.
Qed.

Lemma Qsquare_nonneg (x : Q) : (0 <= x * x)%Q.
Proof. Lqa.nra. Qed.

(** Twice a lag product is at most the two squares, term by term. *)
Lemma Qsum_products (x : nat -> Q) (lag m : nat) :
  (Qabs (Qsum (fun i => x i * x (i + lag)%nat) m) * 2
   <= Qsum (fun i => x i * x i) m + Qsum (fun i => x (i + lag)%nat * x (i + lag)%nat) m)%Q.
Proof.
  apply Qabs_case; intros _.
  - induction m as [ | m IH ]; cbn [Qsum]; [ Lqa.lra | ].
    pose proof (Qsquare_nonneg (x m - x (m + lag)%nat)). Lqa.lra.
  - induction m as [ | m IH ]; cbn [Qsum]; [ Lqa.lra | ].
    pose proof (Qsquare_nonneg (x m + x (m + lag)%nat)). Lqa.lra.
Qed.

(** Cauchy--Schwarz for a lag sum: it is bounded by the energy. *)
Lemma Qsum_lag_bound (x : nat -> Q) (lag n : nat) :
  lag <= n ->
  (Qabs (Qsum (fun i => x i * x (i + lag)%nat) (n - lag)%nat)
   <= Qsum (fun i => x i * x i) n)%Q.
Proof.
  intros Hlag.
  pose proof (Qsum_products x lag (n - lag)%nat) as Hp.
  assert (H1 : (Qsum (fun i => x i * x i) (n - lag)%nat <= Qsum (fun i => x i * x i) n)%Q).
  { replace n with ((n - lag)%nat + lag) at 2 by lia. rewrite Qsum_split.
    pose proof (Qsum_nonneg (fun i => x (n - lag + i)%nat * x (n - lag + i)%nat) lag
                            (fun i => Qsquare_nonneg _))%Q.
    Lqa.lra. }
  assert (H2 : (Qsum (fun i => x (i + lag)%nat * x (i + lag)%nat) (n - lag)%nat
                <= Qsum (fun i => x i * x i) n)%Q).
  { replace n with (lag + (n - lag)%nat) at 2 by lia. rewrite Qsum_split.
    rewrite (@Qsum_ext (fun i => x (i + lag)%nat * x (i + lag)%nat)
                       (fun i => x (lag + i)%nat * x (lag + i)%nat))%Q
      by (intros; rewrite (Nat.add_comm lag); reflexivity).
    pose proof (Qsum_nonneg (fun i => x i * x i) lag
                            (fun i => Qsquare_nonneg _))%Q.
    Lqa.lra. }
  Lqa.lra.
Qed.

Lemma nth_map_seq {A : Type} (f : nat -> A) (n i : nat) (d : A) :
  i < n -> nth i (map f (seq 0 n)) d = f i.
Proof.
  intros Hi. apply nth_error_nth.
  rewrite nth_error_map, (nth_error_nth' _ 0) by (rewrite length_seq; exact Hi).
  rewrite seq_nth by exact Hi. reflexivity.
Qed.

(** The rational value of [autocorr] at each lag. *)
Lemma autocorr_exact (signal : list Q) (lag : nat) :
  lag < length signal ->
  xrat_is (rd (autocorr (map XFin signal)) lag)
          (Qsum (fun i => nth i signal 0 * nth (i + lag)%nat signal 0)
                (length signal - lag)%nat)%Q.
Proof.
  intros Hlag. unfold autocorr, rd. rewrite length_map.
  rewrite nth_map_seq by exact Hlag.
  destruct (@xrat_is_fold_add
              (fun i => mul (rd (map XFin signal) i) (rd (map XFin signal) (i + lag)%nat))
              (fun i => nth i signal 0 * nth (i + lag)%nat signal 0)%Q
              (length signal - lag)%nat (of_Z 0) 0%Q) as [q [E Hq]].
  - apply xrat_is_of_Z.
  - intros i Hi. apply xrat_is_mul; apply xrat_is_rd; lia.
  - exists q; split; [ exact E | ]. rewrite Hq. ring.
Qed.

(** [Math.max] of finite Numbers none of which exceeds the first one. *)
Lemma Math_max_head (h : xrat) (t : list xrat) (qh : Q) :
  xrat_is h qh ->
  (forall x, In x t -> exists q, xrat_is x q /\ (q <= qh)%Q) ->
  Math_max (h :: t) = h.
Proof.
  intros Hh Ht. unfold Math_max. cbn [fold_left].
  destruct Hh as [h' [-> Hh]].
  cbn [eqb neg infinity ltb number_arith xrat_Number xrat_Arith xeqb xneg xltb].
  rewrite Qeq_bool_refl. cbn [negb Bool.eqb].
  induction t as [ | x t IH ]; [ reflexivity | ]. cbn [fold_left].
  destruct (Ht x (or_introl eq_refl)) as [q [[x' [-> Hx]] Hq]].
  cbn [eqb ltb xrat_Number xeqb xltb]. rewrite !Qeq_bool_refl. cbn [negb].
  assert (Hle : Qle_bool x' h' = true)
    by (apply Qle_bool_iff; rewrite Hx, Hh; exact Hq).
  rewrite Hle. cbn [negb]. apply IH.
  intros y Hy. apply Ht. right; exact Hy.
Qed.

Lemma rd_map {T : Type} `{Number T} (f : T -> T) (a : list T) (i : nat) :
  i < length a -> rd (map f a) i = f (rd a i).
Proof.
  intros Hi. unfold rd.
  rewrite (nth_indep _ nan (f nan)) by (rewrite length_map; exact Hi).
  apply map_nth.
Qed.

Lemma autocorr_length {T : Type} `{Number T} (signal : list T) :
  length (autocorr signal) = length signal.
Proof. unfold autocorr. rewrite length_map, length_seq. reflexivity. Qed.

Lemma Qlagsum_0 (signal : list Q) : (Qlagsum signal 0 == Qenergy signal)%Q.
Proof.
  unfold Qlagsum, Qenergy. rewrite Nat.sub_0_r. apply Qsum_ext.
  intros i _. rewrite Nat.add_0_r. reflexivity.
Qed.

Lemma Qlagsum_bound (signal : list Q) (lag : nat) :
  lag < length signal -> (Qabs (Qlagsum signal lag) <= Qenergy signal)%Q.
Proof.
  intros Hlag. apply (@Qsum_lag_bound (fun i => nth i signal 0%Q)). lia.
Qed.

Lemma Qenergy_nonneg (signal : list Q) : (0 <= Qenergy signal)%Q.
Proof. apply Qsum_nonneg. intros i. apply Qsquare_nonneg. Qed.

Lemma autocorr_max (signal : list Q) :
  signal <> [] ->
  Math_max (autocorr (map XFin signal)) = rd (autocorr (map XFin signal)) 0.
Proof.
  intros Hne.
  assert (Hlen : 0 < length signal) by (destruct signal; [ congruence | cbn; lia ]).
  pose proof (autocorr_length (map XFin signal)) as Hac. rewrite length_map in Hac.
  destruct (autocorr (map XFin signal)) as [ | h t ] eqn:Eac;
    [ cbn in Hac; lia | ].
  cbn [rd nth].
  apply (@Math_max_head h t (Qenergy signal)).
  - pose proof (autocorr_exact signal Hlen) as H0. rewrite Eac in H0.
    cbn [rd nth] in H0. destruct H0 as [q [E Hq]]. exists q; split; auto.
    rewrite Hq. apply Qlagsum_0.
  - intros x Hx. apply (In_nth _ _ nan) in Hx. destruct Hx as [i [Hi <-]].
    assert (Hlag : S i < length signal) by (cbn in Hac; lia).
    pose proof (autocorr_exact signal Hlag) as HS. rewrite Eac in HS.
    cbn [rd nth] in HS.
    exists (Qlagsum signal (S i)). split; [ exact HS | ].
    eapply Qle_trans; [ apply Qle_Qabs | apply Qlagsum_bound; exact Hlag ].
Qed.

(** C9: in exact arithmetic, for every signal and every lag, the
    autocorrelation values are finite, [ac[0]] is the energy and is not
    negative, [|ac[lag]| <= ac[0]], the maximum the pitch detector
    divides by is [ac[0]], and whenever it divides (the maximum is not 0)
    the normalized value at the lag lies in [-1, 1]. *)
Theorem autocorr_bounded (signal : list Q) (lag : nat) :
  lag < length signal ->
  let ac := autocorr (map XFin signal) in
  let maxAuto := Math_max ac in
  exists e v : Q,
    xrat_is (rd ac 0) e /\ xrat_is (rd ac lag) v
    /\ (0 <= e)%Q /\ (Qabs v <= e)%Q
    /\ maxAuto = rd ac 0
    /\ (eqb maxAuto (of_Z 0) = false ->
        exists w, xrat_is (rd (map (fun v => div v maxAuto) ac) lag) w
                  /\ (- (1) <= w <= 1)%Q).
Proof.
  intros Hlag ac maxAuto.
  assert (Hlen : 0 < length signal) by lia.
  assert (Hne : signal <> []) by (intros ->; cbn in Hlen; lia).
  pose proof (autocorr_exact signal Hlen) as H0.
  pose proof (autocorr_exact signal Hlag) as Hv.
  fold (Qlagsum signal 0) in H0. fold (Qlagsum signal lag) in Hv. fold ac in H0, Hv.
  assert (Hmax : maxAuto = rd ac 0) by (apply autocorr_max; exact Hne).
  exists (Qenergy signal), (Qlagsum signal lag).
  assert (H0' : xrat_is (rd ac 0) (Qenergy signal)).
  { destruct H0 as [q [E Hq]]. exists q; split; auto. rewrite Hq. apply Qlagsum_0. }
  repeat split; auto.
  - apply Qenergy_nonneg.
  - apply Qlagsum_bound; exact Hlag.
  - intros Hnz. rewrite Hmax in *.
    assert (Hpos : ~ (Qenergy signal == 0)%Q).
    { destruct H0' as [q [E Hq]]. rewrite E in Hnz.
      cbn [eqb xrat_Number xeqb of_Z number_arith xrat_Arith] in Hnz.
      apply Qeq_bool_neq in Hnz. rewrite <- Hq. exact Hnz. }
    exists (Qlagsum signal lag / Qenergy signal)%Q. split.
    + rewrite rd_map
        by (unfold ac; rewrite autocorr_length, length_map; exact Hlag).
      apply xrat_is_div; assumption.
    + pose proof (Qlagsum_bound signal Hlag) as Hb.
      pose proof (Qenergy_nonneg signal) as He.
      assert (Hgt : (0 < Qenergy signal)%Q).
      { apply Qle_lteq in He. destruct He as [ He | He ]; [ exact He | ].
        exfalso; apply Hpos; symmetry; exact He. }
      apply Qabs_Qle_condition in Hb. destruct Hb as [Hlo Hhi].
      split.
      * apply Qle_shift_div_l; [ exact Hgt | ]. Lqa.lra.
      * apply Qle_shift_div_r; [ exact Hgt | ]. Lqa.lra.
Qed.

(** The statement at the signal [1, -2, 3] and lag 1. *)
Lemma autocorr_bounded_witness :
  let ac := autocorr (map XFin [1; -2; 3]%Q) in
  let maxAuto := Math_max ac in
  exists e v : Q,
    xrat_is (rd ac 0) e /\ xrat_is (rd ac 1) v
    /\ (0 <= e)%Q /\ (Qabs v <= e)%Q
    /\ maxAuto = rd ac 0
    /\ (eqb maxAuto (of_Z 0) = false ->
        exists w, xrat_is (rd (map (fun v => div v maxAuto) ac) 1) w
                  /\ (- (1) <= w <= 1)%Q).
Proof.
  apply (@autocorr_bounded [1; -2; 3]%Q 1). cbn; lia.
Defined.

(** ** Resampler: the reads in exact arithmetic *)

Lemma array_length_integer (z : Z) :
  array_length (XFin (inject_Z z))
  = if (z <? 0)%Z || (2 ^ 53 <=? z)%Z then Throw RangeError else Ok (Z.to_nat z).
Proof.
  unfold array_length.
  cbn [eqb xrat_Number xeqb truncate xtruncate]. rewrite Qeq_bool_refl.
  rewrite Qceiling_Z, Qfloor_Z. destruct (Qneg_b (inject_Z z)); reflexivity.
Qed.

Lemma aget_integer (a : list xrat) (q : Q) (z : Z) :
  (q == inject_Z z)%Q -> (0 <= z < Z.of_nat (length a))%Z ->
  exists s, aget a (XFin q) = Some s.
Proof.
  intros Hq Hz. unfold aget.
  cbn [truncate eqb of_Z number_arith xrat_Number xrat_Arith xtruncate xeqb].
  rewrite (Qceiling_comp _ _ Hq), (Qfloor_comp _ _ Hq), Qceiling_Z, Qfloor_Z.
  assert (Hz' : (if Qneg_b q then z else z) = z) by (destruct (Qneg_b q); reflexivity).
  rewrite Hz'.
  assert (He : Qeq_bool q (inject_Z z) = true) by (apply Qeq_bool_iff, Hq).
  assert (H0 : (0 <=? z)%Z = true) by (apply Z.leb_le; lia).
  rewrite He, H0. cbn [andb].
  destruct (nth_error a (Z.to_nat z)) eqn:E; [ eauto | ].
  apply nth_error_None in E. lia.
Qed.

(** In exact arithmetic the bound that C10 states holds: for positive
    finite rates, at every output position [i] the index
    [floor(i * ratio)] is a slot of the signal, and so is the next index
    whenever the guard [low + 1 < signal.length] lets it be read. *)
Theorem resample_reads_in_bounds_exact (signal : list xrat) (oldFs newFs : Q)
  (n i : nat) :
  (0 < oldFs)%Q -> (0 < newFs)%Q ->
  array_length (resample_newLength (length signal) (div (XFin oldFs) (XFin newFs)))
  = Ok n ->
  i < n ->
  let low := resample_low (div (XFin oldFs) (XFin newFs)) i in
  (exists s, aget signal low = Some s)
  /\ (ltb (add low (of_Z 1)) (of_nat (length signal)) = true ->
      exists s, aget signal (add low (of_Z 1)) = Some s).
Proof.
  intros Ho Hn Hlen Hi.
  cbn [div number_arith xrat_Number xrat_Arith] in *.
  rewrite xdiv_fin in * by (apply Qpos_neq0, Hn).
  set (r := Qred (oldFs / newFs)) in *.
  assert (Hr : (0 < r)%Q).
  { unfold r. rewrite Qred_correct. apply Qlt_shift_div_l; [ exact Hn | ].
    rewrite Qmult_0_l. exact Ho. }
  set (len := Z.of_nat (length signal)) in *.
  (* the allocated length *)
  unfold resample_newLength, of_nat in Hlen.
  cbn [div of_Z Math_ceil number_arith xrat_Number xrat_Arith] in Hlen.
  rewrite xdiv_fin in Hlen by (apply Qpos_neq0, Hr). cbn [xround] in Hlen.
  rewrite (Qceiling_comp _ _ (Qred_correct _)) in Hlen. fold len in Hlen.
  set (z := Qceiling (inject_Z len / r)) in *.
  rewrite array_length_integer in Hlen.
  destruct ((_ <? 0)%Z || _) in Hlen; [ discriminate | ].
  assert (Hn' : n = Z.to_nat z) by congruence. subst n.
  assert (Hpos : (inject_Z (Z.of_nat i) * r < inject_Z len)%Q).
  { pose proof (Qceiling_lt (inject_Z len / r)) as Hc. fold z in Hc.
    assert (Hz : (Z.of_nat i <= z - 1)%Z) by lia.
    rewrite Zle_Qle in Hz.
    apply (Qmult_lt_compat_r _ _ r Hr) in Hc.
    assert (Hd : (inject_Z len / r * r == inject_Z len)%Q)
      by (field; apply Qpos_neq0, Hr).
    rewrite Hd in Hc.
    eapply Qle_lt_trans; [ | exact Hc ].
    apply Qmult_le_compat_r; [ exact Hz | apply Qlt_le_weak, Hr ]. }
  (* the lower index *)
  unfold resample_low, of_nat.
  cbn [mul of_Z Math_floor number_arith xrat_Number xrat_Arith xmul xround].
  set (w := Qfloor (Qred (inject_Z (Z.of_nat i) * r))).
  assert (Hw : w = Qfloor (inject_Z (Z.of_nat i) * r))
    by (apply Qfloor_comp, Qred_correct).
  assert (Hw0 : (0 <= w)%Z).
  { rewrite Hw. change 0%Z with (Qfloor (inject_Z 0)). apply Qfloor_resp_le.
    apply Qmult_le_0_compat; [ | apply Qlt_le_weak, Hr ].
    change 0%Q with (inject_Z 0). rewrite <- Zle_Qle. lia. }
  assert (Hwlen : (w < len)%Z).
  { rewrite Zlt_Qlt. eapply Qle_lt_trans; [ | exact Hpos ].
    rewrite Hw. apply Qfloor_le. }
  split.
  - apply (@aget_integer signal _ w); [ reflexivity | fold len; lia ].
  - cbn [add ltb of_Z number_arith xrat_Number xrat_Arith xadd xltb].
    intros Hguard. apply negb_true_iff in Hguard.
    assert (Hlt : (inject_Z w + inject_Z 1 < inject_Z len)%Q).
    { rewrite <- (Qred_correct (inject_Z w + inject_Z 1)).
      apply Qnot_le_lt. intros Hc. apply Qle_bool_iff in Hc. fold len in Hguard.
      congruence. }
    rewrite <- inject_Z_plus, <- Zlt_Qlt in Hlt.
    apply (@aget_integer signal _ (w + 1)%Z).
    + rewrite Qred_correct, inject_Z_plus. reflexivity.
    + fold len; lia.
Qed.

(** The statement at five samples, the rates 5 and 61, position 60. *)
Lemma resample_reads_in_bounds_exact_witness :
  let low := resample_low (div (XFin 5) (XFin 61)) 60 in
  (exists s, aget (xrats [1; 2; 3; 4; 5]%Z) low = Some s)
  /\ (ltb (add low (of_Z 1)) (of_nat (length (xrats [1; 2; 3; 4; 5]%Z))) = true ->
      exists s, aget (xrats [1; 2; 3; 4; 5]%Z) (add low (of_Z 1)) = Some s).
Proof.
  apply (@resample_reads_in_bounds_exact (xrats [1; 2; 3; 4; 5]%Z) 5 61 61 60).
  - reflexivity.
  - reflexivity.
  - vm_compute; reflexivity.
  - lia.
Defined.

(** ** Linear prediction: orders up to two *)

(** Up to order 2 the update loop has at most one turn, which reads
    [a[1]] before it writes it: the code agrees with the recursion on the
    previous order's coefficients, in every Number system. *)
Theorem levinsonDurbin_small_orders {T : Type} `{Number T} (R : list T)
  (order : nat) :
  order <= 2 -> levinsonDurbin R order = levinsonDurbin_ref R order.
Proof.
  intros Horder.
  destruct order as [ | [ | [ | order ] ] ]; [ reflexivity .. | lia ].
Qed.

(** The statement at the autocorrelation [2, 1, 1] and order 2. *)
Lemma levinsonDurbin_small_orders_witness :
  levinsonDurbin (xrats [2; 1; 1]%Z) 2 = levinsonDurbin_ref (xrats [2; 1; 1]%Z) 2.
Proof.
  apply (@levinsonDurbin_small_orders xrat _ (xrats [2; 1; 1]%Z) 2). lia.
Defined.

(** ** Vector quantizer: what an iteration does to a codeword *)

Section EmptyCodeword.
Context {T : Type} `{Number T} `{SquareRoot T}.

Lemma vq_assign_step_ok (D K : nat) (codebook : list (list T))
  (st st' : list nat * list (list T)) (feature : list T) :
  vq_sums_ok D K st ->
  vq_assign_step D codebook (Ok st) feature = Ok st' ->
  vq_sums_ok D K st'.
Proof.
  destruct st as [counts newCodebook]. intros [Hc [Hn Hz]].
  unfold vq_assign_step; cbn [bind fst snd] in *.
  destruct (nth_error newCodebook (nearest D codebook feature)) as [ row | ] eqn:E.
  - intros E'; injection E' as <-.
    assert (Hidx : nearest D codebook feature < K).
    { rewrite <- Hn. apply nth_error_Some. congruence. }
    repeat split; cbn [fst snd]; rewrite ?length_upd; auto.
    intros k Hk Hcount.
    destruct (Nat.eq_dec (nearest D codebook feature) k) as [ Heq | Hneq ].
    + rewrite Heq, nth_upd_eq in Hcount by lia. discriminate.
    + rewrite nth_upd_neq in Hcount by exact Hneq.
      rewrite nth_upd_neq by exact Hneq. auto.
  - destruct (D =? 0); [ | discriminate ].
    intros E'; injection E' as <-. repeat split; auto.
Qed.

Lemma vq_assign_fold_throw (D : nat) (codebook features : list (list T))
  (e : js_error) :
  fold_left (vq_assign_step D codebook) features (Throw e) = Throw e.
Proof. induction features as [ | f fs IH ]; cbn [fold_left]; auto. Qed.

Lemma vq_assign_fold_ok (D K : nat) (codebook features : list (list T))
  (st st' : list nat * list (list T)) :
  vq_sums_ok D K st ->
  fold_left (vq_assign_step D codebook) features (Ok st) = Ok st' ->
  vq_sums_ok D K st'.
Proof.
  revert st; induction features as [ | f fs IH ]; intros st Hst; cbn [fold_left].
  - intros E; injection E as <-; exact Hst.
  - destruct (vq_assign_step D codebook (Ok st) f) as [ st1 | e ] eqn:E1.
    + apply IH. eapply vq_assign_step_ok; eauto.
    + rewrite vq_assign_fold_throw. discriminate.
Qed.

Lemma vq_assign_ok (D : nat) (features codebook : list (list T))
  (st : list nat * list (list T)) :
  vq_assign D features codebook = Ok st -> vq_sums_ok D (length codebook) st.
Proof.
  apply vq_assign_fold_ok. repeat split; cbn [fst snd]; rewrite ?repeat_length; auto.
  intros k Hk _. apply nth_repeat_lt; exact Hk.
Qed.

Lemma vq_update_at_length (D : nat) (tol : T) (counts : list nat)
  (newCodebook : list (list T)) (st : list (list T) * bool) (k : nat) :
  length (fst (vq_update_at D tol counts newCodebook st k)) = length (fst st).
Proof. destruct st; unfold vq_update_at; cbn [fst]. apply length_upd. Qed.

Lemma vq_update_at_other (D : nat) (tol : T) (counts : list nat)
  (newCodebook : list (list T)) (st : list (list T) * bool) (k i : nat) :
  k <> i ->
  nth i (fst (vq_update_at D tol counts newCodebook st k)) []
  = nth i (fst st) [].
Proof. destruct st; unfold vq_update_at; cbn [fst]. apply nth_upd_neq. Qed.

Lemma vq_update_at_empty (D : nat) (tol : T) (counts : list nat)
  (newCodebook : list (list T)) (st : list (list T) * bool) (k : nat) :
  k < length (fst st) ->
  nth k counts 0 = 0 ->
  nth k (fst (vq_update_at D tol counts newCodebook st k)) []
  = nth k newCodebook [].
Proof.
  destruct st as [codebook changed]; unfold vq_update_at; cbn [fst].
  intros Hk ->. cbn [Nat.ltb Nat.leb]. apply nth_upd_eq; exact Hk.
Qed.

(** In every iteration and every Number system, a codeword that no
    feature vector was assigned to becomes the zero vector of dimension
    [D]. *)
Theorem vq_iteration_empty_codeword (D : nat) (tol : T)
  (features codebook codebook' : list (list T)) (counts : list nat)
  (newCodebook : list (list T)) (changed : bool) (k : nat) :
  vq_assign D features codebook = Ok (counts, newCodebook) ->
  vq_iteration D tol features codebook = Ok (codebook', changed) ->
  k < length codebook ->
  nth k counts 0 = 0 ->
  nth k codebook' [] = repeat (of_Z 0) D.
Proof.
  intros Hassign Hiter Hk Hcount.
  pose proof (vq_assign_ok _ _ _ Hassign) as [_ [_ Hzero]]. cbn [fst snd] in Hzero.
  unfold vq_iteration in Hiter. rewrite Hassign in Hiter. cbn [bind] in Hiter.
  injection Hiter as Hiter.
  assert (Hfst : codebook'
                 = fst (fold_left (vq_update_at D tol counts newCodebook)
                                  (seq 0 (length codebook)) (codebook, false)))
    by (rewrite Hiter; reflexivity).
  rewrite Hfst.
  assert (Hseq : seq 0 (length codebook)
                 = seq 0 k ++ k :: seq (S k) (length codebook - S k)).
  { replace (length codebook) with (k + S (length codebook - S k)) at 1 by lia.
    rewrite seq_app. reflexivity. }
  rewrite Hseq, fold_left_app. cbn [fold_left].
  set (st1 := fold_left (vq_update_at D tol counts newCodebook) (seq 0 k)
                        (codebook, false)).
  assert (Hlen1 : length (fst st1) = length codebook).
  { unfold st1.
    apply (@fold_left_invariant _ _
             (fun st => length (fst st) = length codebook) (fun _ => True)).
    - intros s i _ Hs. rewrite vq_update_at_length. exact Hs.
    - apply Forall_forall; auto.
    - reflexivity. }
  apply (@fold_left_invariant _ _
           (fun st => nth k (fst st) [] = repeat (of_Z 0) D) (fun i => i <> k)).
  - intros s i Hi Hs. rewrite vq_update_at_other by exact Hi. exact Hs.
  - apply Forall_seq. intros; lia.
  - rewrite vq_update_at_empty by (rewrite ?Hlen1; assumption).
    apply Hzero; assumption.
Qed.

End EmptyCodeword.

(** The statement at the features [[1], [3]] and the codebook [[1], [1]]. *)
Lemma vq_iteration_empty_codeword_witness :
  nth 1 [floats [2]%Z; floats [0]%Z] [] = repeat (of_Z 0) 1.
Proof.
  apply (@vq_iteration_empty_codeword float float_Number float_SquareRoot
           1 (of_Z 0)
           [floats [1]%Z; floats [3]%Z] [floats [1]%Z; floats [1]%Z]
           [floats [2]%Z; floats [0]%Z] [2; 0] [floats [4]%Z; floats [0]%Z]
           true 1).
  - vm_compute; reflexivity.
  - vm_compute; reflexivity.
  - cbn; lia.
  - reflexivity.
Defined.

(** ** The transform engine: which lengths it accepts *)

Section TransformShape.
Context {T : Type} `{Arith T} `{Transcendental T}.

(** The body of [cfft], one level of the recursion. *)
Lemma cfft_body (a : list (elem T)) :
  cfft a
  = if le_lt_dec (length a) 1 then Ok a
    else if Nat.eq_dec (length a mod 2) 0 then
      evenFFT <- cfft (map (fun i => slot a (i * 2)) (seq 0 (length a / 2))) ;;
      oddFFT <- cfft (map (fun i => slot a (i * 2 + 1)) (seq 0 (length a / 2))) ;;
      Ok (butterfly (length a) evenFFT oddFFT)
    else Throw RangeError.
Proof.
  rewrite (cfft_unfold_eq a). unfold cfft_unfold, cfft_unfold_clause_1.
  destruct (le_lt_dec (length a) 1) as [ Hle | Hlt ]; [ reflexivity | ].
  unfold cfft_unfold_clause_1_clause_2.
  destruct (Nat.eq_dec (length a mod 2) 0) as [ Heven | Hodd ]; [ | reflexivity ].
  unfold cfft_unfold_clause_1_clause_2_clause_2.
  destruct (cfft (map (fun i => slot a (i * 2)) (seq 0 (length a / 2))))
    as [ evenFFT | e ]; cbn [bind]; [ | reflexivity ].
  unfold cfft_unfold_clause_1_clause_2_clause_2_clause_2.
  destruct (cfft (map (fun i => slot a (i * 2 + 1)) (seq 0 (length a / 2))))
    as [ oddFFT | e ]; reflexivity.
Qed.


Lemma small_is_pow2 (n : nat) : n <= 1 -> n = 0 \/ exists k, n = 2 ^ k.
Proof.
  intros Hn. destruct n as [ | [ | n ] ]; [ left; reflexivity | | lia ].
  right. exists 0. reflexivity.
Qed.

Lemma odd_not_pow2 (n : nat) :
  1 < n -> n mod 2 <> 0 -> ~ (n = 0 \/ exists k, n = 2 ^ k).
Proof.
  intros Hn Hodd [ -> | [ [ | k ] Hk ] ]; [ lia | cbn in Hk; lia | ].
  apply Hodd. rewrite Hk, Nat.pow_succ_r', Nat.mul_comm. apply Nat.Div0.mod_mul.
Qed.

Lemma half_pow2 (n : nat) :
  1 < n -> n mod 2 = 0 ->
  ((n = 0 \/ exists k, n = 2 ^ k) <-> (n / 2 = 0 \/ exists k, n / 2 = 2 ^ k)).
Proof.
  intros Hn Heven.
  assert (Hdiv : n = 2 * (n / 2)).
  { pose proof (Nat.div_mod_eq n 2). lia. }
  split.
  - intros [ -> | [ [ | k ] Hk ] ]; [ lia | cbn in Hk; lia | ].
    right. exists k. rewrite Hk, Nat.pow_succ_r', Nat.mul_comm, Nat.div_mul; lia.
  - intros [ H0' | [ k Hk ] ]; [ lia | ].
    right. exists (S k). rewrite Nat.pow_succ_r', <- Hk. exact Hdiv.
Qed.

Lemma butterfly_length (N : nat) (evenFFT oddFFT : list (elem T)) :
  length (butterfly N evenFFT oddFFT) = N / 2 + N / 2.
Proof.
  unfold butterfly. rewrite length_app, !length_map, !length_seq. reflexivity.
Qed.

(** The outcome of [cfft] is decided by the length alone. *)
Lemma cfft_shape (n : nat) :
  forall a : list (elem T),
    length a = n ->
    ((n = 0 \/ exists k, n = 2 ^ k) ->
     exists out, cfft a = Ok out /\ length out = n)
    /\ (~ (n = 0 \/ exists k, n = 2 ^ k) -> cfft a = Throw RangeError).
Proof.
  induction n as [ n IH ] using lt_wf_ind. intros a Hlen.
  rewrite cfft_body, Hlen.
  destruct (le_lt_dec n 1) as [ Hle | Hlt ].
  - split; [ eauto | ]. intros Hno. exfalso. apply Hno, small_is_pow2, Hle.
  - destruct (Nat.eq_dec (n mod 2) 0) as [ Heven | Hodd ].
    + assert (Hhalf : n / 2 < n) by (apply Nat.div_lt; lia).
      assert (Hdiv : n = 2 * (n / 2)).
      { pose proof (Nat.div_mod_eq n 2). lia. }
      destruct (IH (n / 2) Hhalf
                   (map (fun i => slot a (i * 2)) (seq 0 (n / 2))))
        as [ Heok Heno ]; [ rewrite length_map, length_seq; reflexivity | ].
      destruct (IH (n / 2) Hhalf
                   (map (fun i => slot a (i * 2 + 1)) (seq 0 (n / 2))))
        as [ Hook Hono ]; [ rewrite length_map, length_seq; reflexivity | ].
      split.
      * intros Hp. apply (half_pow2 Hlt Heven) in Hp.
        destruct (Heok Hp) as [ evenFFT [ -> _ ] ].
        destruct (Hook Hp) as [ oddFFT [ -> _ ] ]. cbn [bind].
        eexists; split; [ reflexivity | ]. rewrite butterfly_length. lia.
      * intros Hno.
        assert (Hno' : ~ (n / 2 = 0 \/ exists k, n / 2 = 2 ^ k)).
        { intros Hp. apply Hno, (half_pow2 Hlt Heven), Hp. }
        rewrite (Heno Hno'). reflexivity.
    + split; [ | reflexivity ].
      intros Hp. exfalso. exact (odd_not_pow2 Hlt Hodd Hp).
Qed.

(** Two arrays of one length are both transformed or both refused. *)
Lemma cfft_same_outcome (n : nat) :
  forall a b : list (elem T),
    length a = n -> length b = n ->
    (exists oa ob, cfft a = Ok oa /\ cfft b = Ok ob)
    \/ (cfft a = Throw RangeError /\ cfft b = Throw RangeError).
Proof.
  induction n as [ n IH ] using lt_wf_ind. intros a b Ha Hb.
  rewrite (cfft_body a), (cfft_body b), Ha, Hb.
  destruct (le_lt_dec n 1) as [ Hle | Hlt ]; [ left; eauto | ].
  destruct (Nat.eq_dec (n mod 2) 0) as [ Heven | Hodd ]; [ | right; auto ].
  assert (Hhalf : n / 2 < n) by (apply Nat.div_lt; lia).
  destruct (IH (n / 2) Hhalf
               (map (fun i => slot a (i * 2)) (seq 0 (n / 2)))
               (map (fun i => slot b (i * 2)) (seq 0 (n / 2))))
    as [ [ ea [ eb [ -> -> ] ] ] | [ -> -> ] ];
    rewrite ?length_map, ?length_seq; auto; cbn [bind].
  destruct (IH (n / 2) Hhalf
               (map (fun i => slot a (i * 2 + 1)) (seq 0 (n / 2)))
               (map (fun i => slot b (i * 2 + 1)) (seq 0 (n / 2))))
    as [ [ oa [ ob [ -> -> ] ] ] | [ -> -> ] ];
    rewrite ?length_map, ?length_seq; auto; cbn [bind].
  left; eauto.
Qed.

(** The product [t.mul(oddFFT[k])] is dropped, so the transform of the
    odd half never reaches the result; by induction only slot 0 does. *)
Lemma cfft_first (n : nat) :
  forall a b : list (elem T),
    length a = n -> length b = n -> slot a 0 = slot b 0 -> cfft a = cfft b.
Proof.
  induction n as [ n IH ] using lt_wf_ind. intros a b Ha Hb Hslot.
  destruct (le_lt_dec n 1) as [ Hle | Hlt ].
  - destruct a as [ | x [ | ] ], b as [ | y [ | ] ]; cbn in *; try lia;
      [ reflexivity | ].
    unfold slot in Hslot; cbn in Hslot. subst y. reflexivity.
  - rewrite (cfft_body a), (cfft_body b), Ha, Hb.
    destruct (le_lt_dec n 1) as [ Hle | _ ]; [ lia | ].
    destruct (Nat.eq_dec (n mod 2) 0) as [ Heven | Hodd ]; [ | reflexivity ].
    assert (Hhalf : n / 2 < n) by (apply Nat.div_lt; lia).
    assert (Hpos : 0 < n / 2).
    { pose proof (Nat.div_mod_eq n 2). lia. }
    assert (He : cfft (map (fun i => slot a (i * 2)) (seq 0 (n / 2)))
                 = cfft (map (fun i => slot b (i * 2)) (seq 0 (n / 2)))).
    { apply (IH (n / 2) Hhalf); rewrite ?length_map, ?length_seq; auto.
      unfold slot at 1 3. rewrite !nth_map_seq by exact Hpos. exact Hslot. }
    rewrite He.
    destruct (cfft (map (fun i => slot b (i * 2)) (seq 0 (n / 2))))
      as [ evenFFT | e ]; cbn [bind]; [ | reflexivity ].
    destruct (@cfft_same_outcome (n / 2)
                (map (fun i => slot a (i * 2 + 1)) (seq 0 (n / 2)))
                (map (fun i => slot b (i * 2 + 1)) (seq 0 (n / 2))))
      as [ [ oa [ ob [ -> -> ] ] ] | [ -> -> ] ];
      rewrite ?length_map, ?length_seq; reflexivity.
Qed.

End TransformShape.

(** For every array: a length that is a power of two (or no slot at all)
    gives back an array of that length, with at most one slot the array
    itself; any other length raises [RangeError] ([N / 2] is halved until
    it is odd, and [new Array] refuses a fractional length). *)
Theorem cfft_accepts_powers_of_two {T : Type} `{Arith T} `{Transcendental T}
  (a : list (elem T)) :
  ((exists k, length a = 2 ^ k) ->
   exists out, cfft a = Ok out /\ length out = length a)
  /\ (length a <= 1 -> cfft a = Ok a)
  /\ (1 < length a -> ~ (exists k, length a = 2 ^ k) ->
      cfft a = Throw RangeError).
Proof.
  destruct (@cfft_shape T _ _ (length a) a eq_refl) as [ Hok Hno ].
  repeat split.
  - intros Hp. apply Hok. right; exact Hp.
  - intros Hle. rewrite cfft_body.
    destruct (le_lt_dec (length a) 1); [ reflexivity | lia ].
  - intros Hlt Hp. apply Hno. intros [ H0' | Hp' ]; [ lia | exact (Hp Hp') ].
Qed.

(** The statement at arrays of two and of three real slots. *)
Lemma cfft_accepts_powers_of_two_witness :
  (exists out, cfft [Raw 1%R; Raw 2%R] = Ok out
               /\ length out = length [Raw 1%R; Raw 2%R])
  /\ cfft [Raw 1%R; Raw 2%R; Raw 3%R] = Throw RangeError.
Proof.
  split.
  - apply (proj1 (@cfft_accepts_powers_of_two R _ _ [Raw 1%R; Raw 2%R])).
    exists 1. reflexivity.
  - apply (proj2 (proj2 (@cfft_accepts_powers_of_two R _ _
                           [Raw 1%R; Raw 2%R; Raw 3%R]))).
    + cbn; lia.
    + intros [ [ | [ | k ] ] Hk ]; cbn in Hk; lia.
Defined.

(** Two arrays of one length that agree on slot 0 have the same
    transform: no other sample is read into the result. *)
Theorem cfft_reads_first_slot_only {T : Type} `{Arith T} `{Transcendental T}
  (a b : list (elem T)) :
  length a = length b -> slot a 0 = slot b 0 -> cfft a = cfft b.
Proof.
  intros Hlen Hslot. apply (@cfft_first T _ _ (length b)); auto.
Qed.

(** The statement at two real arrays of four slots. *)
Lemma cfft_reads_first_slot_only_witness :
  cfft [Raw 1%R; Raw 2%R; Raw 3%R; Raw 4%R]
  = cfft [Raw 1%R; Raw 7%R; Raw 8%R; Raw 9%R].
Proof.
  apply (@cfft_reads_first_slot_only R _ _); reflexivity.
Defined.

(** ** Cepstral analysis: what reaches the result *)

Section CepstrumShape.
Context {T : Type} `{Number T} `{Transcendental T} `{Logarithm T}.

(** The inverse transform has the outcome of the forward one. *)
Lemma icfft_shape (a : list (elem T)) :
  (length a = 0 \/ exists k, length a = 2 ^ k) ->
  exists out, icfft a = Ok out /\ length out = length a.
Proof.
  intros Hp. unfold icfft.
  destruct (@cfft_shape T _ _ (length a) (map conj_slot a)) as [ Hok _ ].
  { apply length_map. }
  destruct (Hok Hp) as (out & Hout & Hlen).
  exists (map (scale_slot (div (of_Z 1) (of_nat (length a)))) out).
  rewrite Hout. cbn. rewrite length_map. auto.
Qed.

Lemma cepstralAnalysis_shape (signal : list T) (nCeps : nat) :
  ((length signal = 0 \/ exists k, length signal = 2 ^ k) ->
   exists out, cepstralAnalysis signal nCeps = Ok out
               /\ length out = Nat.min nCeps (length signal))
  /\ (~ (length signal = 0 \/ exists k, length signal = 2 ^ k) ->
      cepstralAnalysis signal nCeps = Throw RangeError).
Proof.
  unfold cepstralAnalysis.
  destruct (@cfft_shape T _ _ (length signal)
              (map (fun v => Cx (new_Complex v (of_Z 0))) signal))
    as [ Hok Hno ].
  { apply length_map. }
  split.
  - intros Hp. destruct (Hok Hp) as (spectrum & Hs & Hlen).
    rewrite Hs. cbn [bind].
    match goal with
    | |- context [icfft ?l] =>
        destruct (icfft_shape l) as (cepstrum & Hc & Hlen')
    end.
    { rewrite !length_map, Hlen. exact Hp. }
    rewrite Hc. cbn [bind].
    eexists; split; [ reflexivity | ].
    rewrite length_map, length_firstn, Hlen', !length_map, Hlen. reflexivity.
  - intros Hp. rewrite (Hno Hp). reflexivity.
Qed.

Lemma cepstralAnalysis_first (s1 s2 : list T) (nCeps : nat) :
  length s1 = length s2 -> hd_error s1 = hd_error s2 ->
  cepstralAnalysis s1 nCeps = cepstralAnalysis s2 nCeps.
Proof.
  intros Hlen Hhd. unfold cepstralAnalysis.
  rewrite (@cfft_first T _ _ (length s1)
             (map (fun v => Cx (new_Complex v (of_Z 0))) s1)
             (map (fun v => Cx (new_Complex v (of_Z 0))) s2)).
  - reflexivity.
  - apply length_map.
  - rewrite length_map. auto.
  - destruct s1, s2; cbn in *; try discriminate; congruence.
Qed.

End CepstrumShape.

(** A signal whose length is a power of two yields [min(nCeps, N)]
    coefficients; a longer signal of any other length raises [RangeError],
    the error of the transform; whatever [Math.exp], [Math.cos],
    [Math.sin] and [Math.log] compute. *)
Theorem cepstralAnalysis_outcome {T : Type} `{Number T} `{Transcendental T}
  `{Logarithm T} (signal : list T) (nCeps : nat) :
  ((exists k, length signal = 2 ^ k) ->
   exists out, cepstralAnalysis signal nCeps = Ok out
               /\ length out = Nat.min nCeps (length signal))
  /\ (1 < length signal -> ~ (exists k, length signal = 2 ^ k) ->
      cepstralAnalysis signal nCeps = Throw RangeError).
Proof.
  destruct (cepstralAnalysis_shape signal nCeps) as [ Hok Hno ]. split.
  - intros Hp. apply Hok. right; exact Hp.
  - intros Hlt Hp. apply Hno. intros [ H0' | Hp' ]; [ lia | exact (Hp Hp') ].
Qed.

(** The statement at signals of four and of three samples in exact
    arithmetic, the four functions of [Math] read as the identity. *)
Lemma cepstralAnalysis_outcome_witness :
  let math := {| Math_exp := fun x : xrat => x; Math_cos := fun x => x;
                 Math_sin := fun x => x; Math_PI := of_Z 3 |} in
  let log := {| Math_log := fun x : xrat => x |} in
  (exists out, @cepstralAnalysis xrat _ math log (xrats [1; 2; 3; 4]%Z) 13 = Ok out
               /\ length out = Nat.min 13 (length (xrats [1; 2; 3; 4]%Z)))
  /\ @cepstralAnalysis xrat _ math log (xrats [1; 2; 3]%Z) 13 = Throw RangeError.
Proof.
  intros math log. split.
  - apply (proj1 (@cepstralAnalysis_outcome xrat _ math log
                    (xrats [1; 2; 3; 4]%Z) 13)).
    exists 2. reflexivity.
  - apply (proj2 (@cepstralAnalysis_outcome xrat _ math log
                    (xrats [1; 2; 3]%Z) 13)).
    + cbn; lia.
    + intros [ [ | [ | k ] ] Hk ]; cbn in Hk; lia.
Defined.

(** Two signals of one length with the same first sample have the same
    cepstral coefficients: the transform reads no other sample. *)
Theorem cepstralAnalysis_reads_first_sample_only {T : Type} `{Number T}
  `{Transcendental T} `{Logarithm T} (s1 s2 : list T) (nCeps : nat) :
  length s1 = length s2 -> hd_error s1 = hd_error s2 ->
  cepstralAnalysis s1 nCeps = cepstralAnalysis s2 nCeps.
Proof.
  apply cepstralAnalysis_first.
Qed.

(** The statement at two signals of four samples. *)
Lemma cepstralAnalysis_reads_first_sample_only_witness :
  let math := {| Math_exp := fun x : xrat => x; Math_cos := fun x => x;
                 Math_sin := fun x => x; Math_PI := of_Z 3 |} in
  let log := {| Math_log := fun x : xrat => x |} in
  @cepstralAnalysis xrat _ math log (xrats [1; 2; 3; 4]%Z) 13
  = @cepstralAnalysis xrat _ math log (xrats [1; 7; 8; 9]%Z) 13.
Proof.
  intros math log.
  apply (@cepstralAnalysis_reads_first_sample_only xrat _ math log);
    reflexivity.
Defined.

(** ** Synthesis filter: the recurrence it computes *)

Section SynthesisRecurrence.
Context {T : Type} `{Number T}.

Lemma fold_left_ext_in {S I : Type} (f g : S -> I -> S) (l : list I) (s : S) :
  (forall i s, In i l -> f s i = g s i) -> fold_left f l s = fold_left g l s.
Proof.
  revert s; induction l as [ | i l IH ]; intros s Hfg; simpl; auto.
  rewrite Hfg by (left; reflexivity). apply IH.
  intros j s' Hj. apply Hfg. right; exact Hj.
Qed.

Lemma delay_shift_length (m : nat) (state : list T) :
  length (delay_shift m state) = length state.
Proof.
  unfold delay_shift. revert state.
  induction (rev (seq 1 m)) as [ | j js IH ]; intros state; simpl; auto.
  rewrite IH. apply length_upd.
Qed.

Lemma delay_shift_S (m : nat) (state : list T) :
  delay_shift (S m) state = delay_shift m (upd (S m) (rd state m) state).
Proof.
  unfold delay_shift. rewrite seq_S, rev_app_distr. simpl.
  rewrite Nat.sub_0_r. reflexivity.
Qed.

Lemma delay_shift_rd (m : nat) (state : list T) (j : nat) :
  m < length state ->
  rd (delay_shift m state) j
  = if (1 <=? j) && (j <=? m) then rd state (j - 1) else rd state j.
Proof.
  revert state; induction m as [ | m IH ]; intros state Hm.
  - unfold delay_shift; cbn [seq rev fold_left].
    destruct (1 <=? j) eqn:H1; destruct (j <=? 0) eqn:H2; cbn [andb];
      nat_bool; try lia; reflexivity.
  - rewrite delay_shift_S, IH by (rewrite length_upd; lia).
    destruct (1 <=? j) eqn:H1; cbn [andb].
    + destruct (j <=? m) eqn:H2; destruct (j <=? S m) eqn:H3;
        nat_bool; try lia.
      * apply rd_upd_neq. lia.
      * replace j with (S m) by lia. rewrite rd_upd_eq by lia.
        replace (S m - 1) with m by lia. reflexivity.
      * apply rd_upd_neq. lia.
    + nat_bool. apply rd_upd_neq. lia.
Qed.

Lemma iir_sample_ext (input coeffs : list T) (gain : T) (y y' : list T)
  (i : nat) :
  (forall p, p < i -> rd y p = rd y' p) ->
  iir_sample input coeffs gain y i = iir_sample input coeffs gain y' i.
Proof.
  intros Hy. unfold iir_sample. apply fold_left_ext_in.
  intros j acc Hj. apply in_seq in Hj.
  destruct (j <=? i) eqn:Hji; [ | reflexivity ].
  apply Nat.leb_le in Hji. rewrite Hy by lia. reflexivity.
Qed.

Lemma rd_repeat (x : T) (n j : nat) : j < n -> rd (repeat x n) j = x.
Proof.
  intros Hj. unfold rd. apply nth_repeat_lt. exact Hj.
Qed.

Lemma iir_step_invariant (input coeffs : list T) (gain : T) (i : nat)
  (st : list T * list T) :
  i < length input ->
  iir_invariant input coeffs gain i st ->
  iir_invariant input coeffs gain (S i)
    (iir_step input coeffs gain (length coeffs - 1) st i).
Proof.
  intros Hi. destruct st as [ output state ].
  intros (Hout & Hst & Hdelay & Hrec). cbn [fst snd] in *.
  unfold iir_step.
  set (acc := fold_left _ (seq 1 (length coeffs - 1)) _).
  fold (delay_shift (length coeffs - 1 - 1) state).
  assert (Hacc : acc = iir_sample input coeffs gain output i).
  { unfold acc, iir_sample. apply fold_left_ext_in.
    intros j a Hj. apply in_seq in Hj.
    rewrite Hdelay by lia.
    destruct (j - 1 <? i) eqn:H1; destruct (j <=? i) eqn:H2;
      nat_bool; try lia; auto.
    replace (i - 1 - (j - 1)) with (i - j) by lia. reflexivity. }
  assert (Hkeep : forall p, p < i -> rd (upd i acc output) p = rd output p).
  { intros p Hp. apply rd_upd_neq. lia. }
  repeat split; cbn [fst snd].
  - rewrite length_upd. exact Hout.
  - rewrite length_upd, delay_shift_length. exact Hst.
  - intros j Hj. destruct j as [ | j ].
    + rewrite rd_upd_eq by (rewrite delay_shift_length; lia).
      replace (0 <? S i) with true by (symmetry; apply Nat.ltb_lt; lia).
      replace (S i - 1 - 0) with i by lia.
      rewrite rd_upd_eq by lia. reflexivity.
    + rewrite rd_upd_neq by lia. rewrite delay_shift_rd by lia.
      replace ((1 <=? S j) && (S j <=? length coeffs - 1 - 1)) with true.
      2:{ symmetry. apply andb_true_iff. split; apply Nat.leb_le; lia. }
      replace (S j - 1) with j by lia. rewrite Hdelay by lia.
      destruct (j <? i) eqn:H1; destruct (S j <? S i) eqn:H2;
        nat_bool; try lia; auto.
      rewrite Hkeep by lia. f_equal. lia.
  - intros p Hp. destruct (Nat.eq_dec p i) as [ -> | Hne ].
    + rewrite rd_upd_eq by lia.
      transitivity (iir_sample input coeffs gain output i); [ exact Hacc | ].
      apply iir_sample_ext. intros q Hq. symmetry. apply Hkeep. exact Hq.
    + rewrite Hkeep by lia. rewrite Hrec by lia.
      apply iir_sample_ext. intros q Hq. symmetry. apply Hkeep. lia.
Qed.

Lemma iir_run_invariant (input coeffs : list T) (gain : T) (n : nat) :
  n <= length input ->
  iir_invariant input coeffs gain n
    (fold_left (iir_step input coeffs gain (length coeffs - 1)) (seq 0 n)
       (repeat (of_Z 0) (length input), repeat (of_Z 0) (length coeffs - 1))).
Proof.
  induction n as [ | n IH ]; intros Hn.
  - simpl. repeat split; cbn [fst snd].
    + apply repeat_length.
    + apply repeat_length.
    + intros j Hj. rewrite rd_repeat by exact Hj. reflexivity.
    + intros p Hp. lia.
  - rewrite seq_S, fold_left_app. simpl.
    apply iir_step_invariant; [ lia | apply IH; lia ].
Qed.

(** The leading coefficient is not read. *)
Lemma iir_step_leading (input : list T) (c0 c0' : T) (cs : list T) (gain : T)
  (st : list T * list T) (i : nat) :
  iir_step input (c0 :: cs) gain (length cs) st i
  = iir_step input (c0' :: cs) gain (length cs) st i.
Proof.
  destruct st as [ output state ]. unfold iir_step.
  rewrite (@fold_left_ext_in _ _
             (fun acc j => sub acc (mul (rd (c0 :: cs) j) (rd state (j - 1))))
             (fun acc j => sub acc (mul (rd (c0' :: cs) j) (rd state (j - 1))))).
  - reflexivity.
  - intros j acc Hj. apply in_seq in Hj.
    destruct j as [ | j ]; [ lia | reflexivity ].
Qed.

End SynthesisRecurrence.

(** [iirFilter] raises [RangeError] without coefficients.  With some, it
    returns as many samples as the input has, and sample [i] is
    [input[i] * gain] minus [coeffs[j] * output[i - j]] for [j] from 1 to
    the order, the outputs before the start counted as zero. *)
Theorem iirFilter_recurrence {T : Type} `{Number T} (input coeffs : list T)
  (gain : T) :
  (coeffs = [] -> iirFilter input coeffs gain = Throw RangeError)
  /\ (coeffs <> [] ->
      exists output,
        iirFilter input coeffs gain = Ok output
        /\ length output = length input
        /\ forall i, i < length input ->
             rd output i = iir_sample input coeffs gain output i).
Proof.
  split.
  - intros ->. reflexivity.
  - intros Hne. destruct coeffs as [ | c0 cs ]; [ congruence | ].
    unfold iirFilter. eexists; split; [ reflexivity | ].
    destruct (@iir_run_invariant T _ input (c0 :: cs) gain (length input)
                (le_n _)) as (Hlen & _ & _ & Hrec).
    split; [ exact Hlen | exact Hrec ].
Qed.

(** The statement at a one-pole filter in binary64: with coefficients
    [1, -1/2] the step input [1, 1, 1] gives [1, 3/2, 7/4]. *)
Lemma iirFilter_recurrence_witness :
  exists output,
    iirFilter (floats [1; 1; 1]%Z) [of_Z 1; div (of_Z (-1)) (of_Z 2)] (of_Z 1)
    = Ok output
    /\ length output = length (floats [1; 1; 1]%Z)
    /\ forall i, i < length (floats [1; 1; 1]%Z) ->
         rd output i
         = iir_sample (floats [1; 1; 1]%Z) [of_Z 1; div (of_Z (-1)) (of_Z 2)]
                      (of_Z 1) output i.
Proof.
  apply (proj2 (@iirFilter_recurrence float _ (floats [1; 1; 1]%Z)
                  [of_Z 1; div (of_Z (-1)) (of_Z 2)] (of_Z 1))).
  discriminate.
Defined.

(** [lpcSynthesis] never reads [lpcCoeffs[0]]: two coefficient arrays that
    differ in the leading slot only give the same output. *)
Theorem lpcSynthesis_ignores_leading_coefficient {T : Type} `{Number T}
  (excitation : list T) (c0 c0' : T) (cs : list T) (gain : T) :
  lpcSynthesis excitation (c0 :: cs) gain
  = lpcSynthesis excitation (c0' :: cs) gain.
Proof.
  assert (Hl : forall c : T, length (c :: cs) - 1 = length cs)
    by (intros c; cbn [length]; lia).
  unfold lpcSynthesis, iirFilter. rewrite !Hl. do 2 f_equal.
  apply fold_left_ext_in. intros i st _. apply iir_step_leading.
Qed.

(** ** Resampler: an integer ratio *)

Lemma xrat_is_eq (x : xrat) (a b : Q) : xrat_is x a -> (a == b)%Q -> xrat_is x b.
Proof.
  intros [a' [-> Ha]] Hab. exists a'; split; [ reflexivity | ].
  rewrite Ha. exact Hab.
Qed.

Lemma aget_exact (l : list Q) (q : Q) (z : Z) :
  (q == inject_Z z)%Q -> (0 <= z < Z.of_nat (length l))%Z ->
  aget (map XFin l) (XFin q) = Some (XFin (nth (Z.to_nat z) l 0%Q)).
Proof.
  intros Hq Hz. unfold aget.
  cbn [truncate eqb of_Z number_arith xrat_Number xrat_Arith xtruncate xeqb].
  rewrite (Qceiling_comp _ _ Hq), (Qfloor_comp _ _ Hq), Qceiling_Z, Qfloor_Z.
  assert (Hz' : (if Qneg_b q then z else z) = z) by (destruct (Qneg_b q); reflexivity).
  rewrite Hz'.
  assert (He : Qeq_bool q (inject_Z z) = true) by (apply Qeq_bool_iff, Hq).
  assert (H0 : (0 <=? z)%Z = true) by (apply Z.leb_le; lia).
  rewrite He, H0. cbn [andb].
  rewrite nth_error_map.
  rewrite (nth_error_nth' l 0%Q) by lia. reflexivity.
Qed.

(** Position [i] lies in the output exactly when [i * r] lies in the
    signal. *)
Lemma Qceiling_index (N i : nat) (rq : Q) (r : positive) :
  (rq == inject_Z (Z.pos r))%Q ->
  (Z.of_nat i < Qceiling (inject_Z (Z.of_nat N) / rq))%Z
  <-> i * Pos.to_nat r < N.
Proof.
  intros Hrq.
  assert (Hr : (0 < rq)%Q) by (rewrite Hrq; reflexivity).
  set (x := (inject_Z (Z.of_nat N) / rq)%Q).
  assert (Hx : (x * rq == inject_Z (Z.of_nat N))%Q)
    by (unfold x; field; apply Qpos_neq0, Hr).
  assert (Hprod : (inject_Z (Z.of_nat i) * rq
                   == inject_Z (Z.of_nat (i * Pos.to_nat r)))%Q).
  { rewrite Hrq, <- inject_Z_mult. apply inject_Z_injective. lia. }
  split.
  - intros Hi.
    pose proof (Qceiling_lt x) as Hc.
    assert (Hle : (inject_Z (Z.of_nat i) <= inject_Z (Qceiling x - 1))%Q)
      by (rewrite <- Zle_Qle; lia).
    assert (Hlt : (inject_Z (Z.of_nat i) < x)%Q)
      by (eapply Qle_lt_trans; eauto).
    apply (Qmult_lt_compat_r _ _ rq Hr) in Hlt.
    rewrite Hx, Hprod, <- Zlt_Qlt in Hlt. lia.
  - intros Hi.
    pose proof (Qle_ceiling x) as Hc.
    assert (Hlt : (inject_Z (Z.of_nat i) * rq < x * rq)%Q).
    { rewrite Hx, Hprod, <- Zlt_Qlt. lia. }
    assert (Hlt' : (inject_Z (Z.of_nat i) < x)%Q).
    { apply Qnot_le_lt. intros Hge.
      apply (Qmult_le_compat_r _ _ rq) in Hge; [ | apply Qlt_le_weak, Hr ].
      apply Qle_not_lt in Hge. contradiction. }
    rewrite Zlt_Qlt. eapply Qlt_le_trans; eauto.
Qed.

Lemma resample_sample_integer (l : list Q) (rq : Q) (r : positive) (i : nat) :
  (rq == inject_Z (Z.pos r))%Q ->
  i * Pos.to_nat r < length l ->
  xrat_is (resample_sample (map XFin l) (XFin rq) i)
          (nth (i * Pos.to_nat r) l 0%Q).
Proof.
  intros Hrq Hi. unfold resample_sample, resample_low, of_nat.
  rewrite length_map.
  cbn [mul of_Z Math_floor number_arith xrat_Number xrat_Arith xmul xround].
  set (p := Qred (inject_Z (Z.of_nat i) * rq)).
  set (w := Z.of_nat (i * Pos.to_nat r)).
  assert (Hp : (p == inject_Z w)%Q).
  { unfold p, w. rewrite Qred_correct, Hrq, <- inject_Z_mult.
    apply inject_Z_injective. lia. }
  assert (Hfl : Qfloor p = w) by (rewrite (Qfloor_comp _ _ Hp); apply Qfloor_Z).
  rewrite Hfl.
  assert (Hfrac : xrat_is (sub (XFin p) (XFin (inject_Z w))) 0).
  { eapply xrat_is_eq.
    - apply xrat_is_sub; [ exists p; split; [ reflexivity | exact Hp ]
                         | apply xrat_is_fin ].
    - ring. }
  assert (Hlow : aget (map XFin l) (XFin (inject_Z w))
                 = Some (XFin (nth (i * Pos.to_nat r) l 0%Q))).
  { rewrite (@aget_exact l _ w); [ | reflexivity | unfold w; lia ].
    unfold w. rewrite Nat2Z.id. reflexivity. }
  rewrite Hlow. cbn [ToNumber].
  match goal with |- context [if ?c then _ else _] => destruct c eqn:Hguard end.
  - assert (Hnext : (w + 1 < Z.of_nat (length l))%Z).
    { apply (xrat_is_ltb (xrat_is_add (xrat_is_fin (inject_Z w)) (xrat_is_of_Z 1))
                         (xrat_is_of_Z (Z.of_nat (length l)))) in Hguard.
      rewrite <- inject_Z_plus, <- Zlt_Qlt in Hguard. exact Hguard. }
    assert (Hn : exists s, aget (map XFin l) (add (XFin (inject_Z w)) (of_Z 1))
                           = Some (XFin s)).
    { cbn [add of_Z number_arith xrat_Number xrat_Arith xadd].
      eexists. apply (@aget_exact l _ (w + 1)%Z).
      - rewrite Qred_correct, inject_Z_plus. reflexivity.
      - unfold w in *; lia. }
    destruct Hn as [ s Hs ].
    cbn [add of_Z number_arith xrat_Number xrat_Arith] in Hs |- *.
    rewrite Hs. cbn [ToNumber].
    eapply xrat_is_eq.
    + apply xrat_is_add; apply xrat_is_mul;
        [ apply xrat_is_fin
        | apply xrat_is_sub; [ apply xrat_is_of_Z | exact Hfrac ]
        | apply xrat_is_fin
        | exact Hfrac ].
    + change (inject_Z 1) with 1%Q. ring.
  - apply xrat_is_fin.
Qed.

Lemma resample_integer_ratio (l : list Q) (oldFs newFs : Q) (r : positive) :
  (0 < newFs)%Q -> (oldFs == inject_Z (Z.pos r) * newFs)%Q ->
  (Z.of_nat (length l) < 2 ^ 53)%Z ->
  exists output,
    resample (map XFin l) (XFin oldFs) (XFin newFs) = Ok output
    /\ (forall i, i < length output <-> i * Pos.to_nat r < length l)
    /\ (forall i, i < length output ->
          xrat_is (rd output i) (nth (i * Pos.to_nat r) l 0%Q)).
Proof.
  intros Hn Hratio Hbound. unfold resample.
  cbn [div number_arith xrat_Number xrat_Arith].
  rewrite xdiv_fin by (apply Qpos_neq0, Hn).
  set (rq := Qred (oldFs / newFs)).
  assert (Hrq : (rq == inject_Z (Z.pos r))%Q).
  { unfold rq. rewrite Qred_correct, Hratio. field. apply Qpos_neq0, Hn. }
  assert (Hr : (0 < rq)%Q) by (rewrite Hrq; reflexivity).
  set (z := Qceiling (inject_Z (Z.of_nat (length (map XFin l))) / rq)).
  assert (Hz : (z <= Z.of_nat (length l))%Z).
  { unfold z. rewrite length_map.
    rewrite <- (Qceiling_Z (Z.of_nat (length l))) at 2.
    apply Qceiling_resp_le. rewrite Hrq.
    apply Qle_shift_div_r; [ reflexivity | ].
    rewrite <- inject_Z_mult, <- Zle_Qle. nia. }
  assert (Hz0 : (0 <= z)%Z).
  { unfold z. change 0%Z with (Qceiling (inject_Z 0)).
    apply Qceiling_resp_le.
    apply Qle_shift_div_l; [ exact Hr | ].
    rewrite Qmult_0_l. change 0%Q with (inject_Z 0).
    rewrite <- Zle_Qle. lia. }
  rewrite (@resample_length_exact (map XFin l) rq z Hr eq_refl) by lia.
  cbn [bind]. eexists; split; [ reflexivity | ].
  rewrite length_map, length_seq.
  assert (Hidx : forall i, i < Z.to_nat z <-> i * Pos.to_nat r < length l).
  { intros i. rewrite <- (Qceiling_index (length l) i Hrq).
    unfold z. rewrite length_map. lia. }
  split; [ exact Hidx | ].
  intros i Hi. unfold rd. rewrite nth_map_seq by exact Hi.
  apply (resample_sample_integer l i Hrq). apply Hidx, Hi.
Qed.

(** With rates in an integer ratio [r] the resampler is a plain
    decimation, in exact arithmetic: position [i] exists exactly when
    sample [i * r] does, and holds that sample; no neighbour enters the
    value. *)
Theorem resample_integer_ratio_decimates (l : list Q) (oldFs newFs : Q)
  (r : positive) :
  (0 < newFs)%Q -> (oldFs == inject_Z (Z.pos r) * newFs)%Q ->
  (Z.of_nat (length l) < 2 ^ 53)%Z ->
  exists output,
    resample (map XFin l) (XFin oldFs) (XFin newFs) = Ok output
    /\ (forall i, i < length output <-> i * Pos.to_nat r < length l)
    /\ (forall i, i < length output ->
          xrat_is (rd output i) (nth (i * Pos.to_nat r) l 0%Q)).
Proof.
  apply resample_integer_ratio.
Qed.

(** The statement at five samples and the rates 2 and 1. *)
Lemma resample_integer_ratio_decimates_witness :
  exists output,
    resample (map XFin [1; 2; 3; 4; 5]%Q) (XFin 2) (XFin 1) = Ok output
    /\ (forall i, i < length output
                  <-> i * Pos.to_nat 2 < length [1; 2; 3; 4; 5]%Q)
    /\ (forall i, i < length output ->
          xrat_is (rd output i) (nth (i * Pos.to_nat 2) [1; 2; 3; 4; 5]%Q 0%Q)).
Proof.
  apply (@resample_integer_ratio_decimates [1; 2; 3; 4; 5]%Q 2 1 2).
  - reflexivity.
  - reflexivity.
  - vm_compute; reflexivity.
Defined.

(** ** Waveform coding: the length that comes back *)

(** In exact arithmetic, with an integer reduction factor [f], the signal
    that comes back counts the least multiple of [f] that is not below
    the number of samples given: as many as were given only when [f]
    divides that number, more otherwise. *)
Theorem waveformCodingSynthesis_length (l : list Q) (f : positive) :
  0 < length l ->
  (Z.of_nat (length l) + Z.pos f < 2 ^ 53)%Z ->
  exists output,
    waveformCodingSynthesis (map XFin l) (XFin (inject_Z (Z.pos f))) = Ok output
    /\ length l <= length output < length l + Pos.to_nat f
    /\ Nat.divide (Pos.to_nat f) (length output).
Proof.
  intros Hpos Hbound. unfold waveformCodingSynthesis, of_nat.
  rewrite length_map.
  cbn [div of_Z number_arith xrat_Number xrat_Arith].
  set (N := Z.of_nat (length l)).
  assert (HN : (0 < inject_Z N)%Q).
  { change 0%Q with (inject_Z 0). rewrite <- Zlt_Qlt. unfold N; lia. }
  assert (Hf : (0 < inject_Z (Z.pos f))%Q) by reflexivity.
  rewrite xdiv_fin by (apply Qpos_neq0, Hf).
  set (red := Qred (inject_Z N / inject_Z (Z.pos f))).
  assert (Hred : (red == inject_Z N / inject_Z (Z.pos f))%Q)
    by apply Qred_correct.
  assert (Hred0 : (0 < red)%Q).
  { rewrite Hred. apply Qlt_shift_div_l; [ exact Hf | ].
    rewrite Qmult_0_l. exact HN. }
  destruct (@resample_integer_ratio l (inject_Z N) red f)
    as (down & Hdown & Hidx & _).
  { exact Hred0. }
  { rewrite Hred. field. apply Qpos_neq0, Hf. }
  { unfold N in *; lia. }
  rewrite Hdown. cbn [bind].
  set (M := length down) in *.
  assert (HM1 : length l <= M * Pos.to_nat f).
  { destruct (Nat.le_gt_cases (length l) (M * Pos.to_nat f)) as [ Hle | Hgt ];
      [ exact Hle | ].
    apply Hidx in Hgt. lia. }
  assert (HM2 : M * Pos.to_nat f < length l + Pos.to_nat f).
  { destruct M as [ | M' ]; [ lia | ].
    assert (Hlt : M' < S M') by lia. apply Hidx in Hlt. lia. }
  destruct (@resample_exact down red (inject_Z N)
              (Z.of_nat (M * Pos.to_nat f)) Hred0 HN)
    as (output & Hout & Hlen).
  { rewrite <- (Qceiling_Z (Z.of_nat (M * Pos.to_nat f))).
    apply Qceiling_comp. fold M. rewrite Hred.
    rewrite Nat2Z.inj_mul, inject_Z_mult, positive_nat_Z.
    field. split; apply Qpos_neq0; assumption. }
  { unfold N in *. lia. }
  exists output. split; [ exact Hout | ].
  rewrite Hlen, Nat2Z.id. split; [ lia | ].
  exists M. reflexivity.
Qed.

(** The statement at five samples and the factor 2: six samples come
    back. *)
Lemma waveformCodingSynthesis_length_witness :
  exists output,
    waveformCodingSynthesis (map XFin [1; 2; 3; 4; 5]%Q)
                            (XFin (inject_Z (Z.pos 2))) = Ok output
    /\ length [1; 2; 3; 4; 5]%Q <= length output
       < length [1; 2; 3; 4; 5]%Q + Pos.to_nat 2
    /\ Nat.divide (Pos.to_nat 2) (length output).
Proof.
  apply (@waveformCodingSynthesis_length [1; 2; 3; 4; 5]%Q 2).
  - cbn; lia.
  - vm_compute; reflexivity.
Defined.

(** ** Linear prediction: what the recursion keeps and what it reads *)

Section LinearPredictionFacts.
Context {T : Type} `{Number T}.

Lemma ld_step_leading (R : list T) (st : list T * list T) (m : nat) :
  1 <= m -> rd (fst (ld_step R st m)) 0 = rd (fst st) 0.
Proof.
  intros Hm. destruct st as [ a e ]. unfold ld_step; cbn [fst snd].
  rewrite inner_update_other by (rewrite in_seq; lia).
  apply rd_upd_neq. lia.
Qed.

Lemma ld_run_first (R : list T) (order : nat) (st : list T * list T) :
  rd (fst (fold_left (ld_step R) (seq 1 order) st)) 0 = rd (fst st) 0
  /\ rd (snd (fold_left (ld_step R) (seq 1 order) st)) 0 = rd (snd st) 0.
Proof.
  apply (@fold_left_invariant _ _
           (fun s => rd (fst s) 0 = rd (fst st) 0
                     /\ rd (snd s) 0 = rd (snd st) 0)
           (fun m => 1 <= m)).
  - intros s m Hm [ Ha He ]. split.
    + rewrite ld_step_leading by exact Hm. exact Ha.
    + rewrite ld_step_energy_other by lia. exact He.
  - apply Forall_seq. intros; lia.
  - split; reflexivity.
Qed.

Lemma levinsonDurbin_first (R : list T) (order : nat) :
  rd (levinsonDurbin R order) 0 = of_Z 1
  /\ rd (levinsonDurbin_energy R order) 0 = rd R 0.
Proof.
  unfold levinsonDurbin, levinsonDurbin_energy, levinsonDurbin_state.
  destruct (ld_run_first R order
              (upd 0 (of_Z 1) (repeat (of_Z 0) (order + 1)),
               upd 0 (rd R 0) (repeat (of_Z 0) (order + 1)))) as [ Ha He ].
  cbn [fst snd] in *. rewrite Ha, He.
  split; apply rd_upd_eq; rewrite repeat_length; lia.
Qed.

Lemma ld_step_ext (R R' : list T) (st : list T * list T) (m : nat) :
  (forall i, i <= m -> rd R i = rd R' i) ->
  ld_step R st m = ld_step R' st m.
Proof.
  intros HR. destruct st as [ a e ]. unfold ld_step.
  assert (Hsum :
    fold_left (fun sum j => add sum (mul (rd a j) (rd R (m - j))))
              (seq 1 (m - 1)) (rd R m)
    = fold_left (fun sum j => add sum (mul (rd a j) (rd R' (m - j))))
                (seq 1 (m - 1)) (rd R' m)).
  { rewrite (HR m) by lia. apply fold_left_ext_in.
    intros j sum Hj. rewrite (HR (m - j)) by lia. reflexivity. }
  rewrite Hsum. reflexivity.
Qed.

Lemma levinsonDurbin_ext (R R' : list T) (order : nat) :
  (forall i, i <= order -> rd R i = rd R' i) ->
  levinsonDurbin R order = levinsonDurbin R' order.
Proof.
  intros HR. unfold levinsonDurbin, levinsonDurbin_state.
  rewrite (HR 0) by lia. f_equal.
  apply fold_left_ext_in. intros m st Hm. apply in_seq in Hm.
  apply ld_step_ext. intros i Hi. apply HR. lia.
Qed.

Lemma upd_repeat {A : Type} (i : nat) (x : A) (n : nat) :
  upd i x (repeat x n) = repeat x n.
Proof.
  revert i; induction n as [ | n IH ]; intros [ | i ]; simpl; auto.
  rewrite IH. reflexivity.
Qed.

Lemma rd_firstn (k i : nat) (l : list T) :
  i < k -> rd (firstn k l) i = rd l i.
Proof.
  intros Hi. unfold rd. rewrite nth_firstn.
  apply Nat.ltb_lt in Hi. rewrite Hi. reflexivity.
Qed.

End LinearPredictionFacts.

(** For every autocorrelation vector and order the result has
    [order + 1] slots and slot 0 holds 1: no step of the recursion writes
    it. *)
Theorem levinsonDurbin_leading_one {T : Type} `{Number T} (R : list T)
  (order : nat) :
  length (levinsonDurbin R order) = order + 1
  /\ rd (levinsonDurbin R order) 0 = of_Z 1.
Proof.
  split.
  - apply levinsonDurbin_length.
  - apply levinsonDurbin_first.
Qed.

(** The recursion of order [p] reads the lags [R[0..p]] and no other:
    two vectors that agree on them give the same coefficients. *)
Theorem levinsonDurbin_reads_first_lags {T : Type} `{Number T}
  (R R' : list T) (order : nat) :
  (forall i, i <= order -> rd R i = rd R' i) ->
  levinsonDurbin R order = levinsonDurbin R' order.
Proof.
  apply levinsonDurbin_ext.
Qed.

(** The statement at two vectors that differ in lag 3 only, order 2. *)
Lemma levinsonDurbin_reads_first_lags_witness :
  levinsonDurbin (floats [4; 2; 1; 7]%Z) 2
  = levinsonDurbin (floats [4; 2; 1; 9]%Z) 2.
Proof.
  apply (@levinsonDurbin_reads_first_lags float _
           (floats [4; 2; 1; 7]%Z) (floats [4; 2; 1; 9]%Z) 2).
  intros [ | [ | [ | i ] ] ] Hi; try reflexivity. lia.
Defined.

(** ** Linear prediction: a silent frame *)

Section SilentFrame.
Context {T : Type} {N : Number T} {L : BreakdownLaws T}.
Variable c : T.
Hypothesis silent_sub : sub (of_Z 0) (mul c (of_Z 0)) = of_Z 0.
Hypothesis silent_add : add (of_Z 0 : T) (mul (of_Z 0) (of_Z 0)) = of_Z 0.
Hypothesis silent_ltb : ltb (of_Z 0) c = true.
Hypothesis silent_eqb : eqb (of_Z 0 : T) (of_Z 0) = true.

Lemma preemphasis_silent (n : nat) :
  fold_left (fun p i =>
               upd i (sub (rd (repeat (of_Z 0) n) i)
                          (mul c (rd (repeat (of_Z 0) n) (i - 1)))) p)
            (seq 1 (n - 1))
            (upd 0 (rd (repeat (of_Z 0) n) 0) (repeat (of_Z 0) n))
  = repeat (of_Z 0) n.
Proof.
  apply (@fold_left_invariant _ _
           (fun p => p = repeat (of_Z 0 : T) n) (fun i => 1 <= i < n)).
  - intros p i Hi ->. rewrite !rd_repeat by lia. rewrite silent_sub.
    apply upd_repeat.
  - apply Forall_seq. intros; lia.
  - destruct n as [ | n' ]; [ reflexivity | ].
    rewrite rd_repeat by lia. apply upd_repeat.
Qed.

Lemma autocorr_silent (n : nat) :
  0 < n -> rd (autocorr (repeat (of_Z 0 : T) n)) 0 = of_Z 0.
Proof.
  intros Hn. unfold autocorr, rd at 1. rewrite repeat_length.
  rewrite nth_map_seq by exact Hn.
  apply (@fold_left_invariant _ _
           (fun sum => sum = (of_Z 0 : T)) (fun i => i < n)).
  - intros sum i Hi ->. rewrite !rd_repeat by lia. exact silent_add.
  - apply Forall_seq. intros; lia.
  - reflexivity.
Qed.

Lemma lpcAnalysis_silent (n order : nat) :
  0 < n -> 1 <= order ->
  length (lpcAnalysis (repeat (of_Z 0) n) order c) = order + 1
  /\ rd (lpcAnalysis (repeat (of_Z 0) n) order c) 0 = of_Z 1
  /\ isFinite (rd (lpcAnalysis (repeat (of_Z 0) n) order c) 1) = false.
Proof.
  intros Hn Ho. unfold lpcAnalysis.
  rewrite silent_ltb, repeat_length, preemphasis_silent.
  split; [ apply levinsonDurbin_length | ].
  split; [ apply levinsonDurbin_first | ].
  apply levinsonDurbin_zero_energy_generic; [ lia | ].
  replace (1 - 1) with 0 by lia.
  destruct (levinsonDurbin_first
              (firstn (order + 1) (autocorr (repeat (of_Z 0) n))) order)
    as [ _ He ].
  rewrite He, rd_firstn by lia. rewrite autocorr_silent by exact Hn.
  exact silent_eqb.
Qed.

End SilentFrame.

(** In binary64, with the default pre-emphasis 0.97: the coefficients of
    a silent frame, of any length and at any order from 1, start with 1
    and hold in slot 1 a value that is not a finite number. *)
Theorem lpcAnalysis_silent_frame (n order : nat) :
  0 < n -> 1 <= order ->
  length (lpcAnalysis_default (repeat (of_Z 0 : float) n) order) = order + 1
  /\ rd (lpcAnalysis_default (repeat (of_Z 0 : float) n) order) 0 = of_Z 1
  /\ isFinite (rd (lpcAnalysis_default (repeat (of_Z 0 : float) n) order) 1)
     = false.
Proof.
  intros Hn Ho. unfold lpcAnalysis_default.
  assert (H1 : @sub float number_arith (of_Z 0)
                 (mul (div (of_Z 97) (of_Z 100)) (of_Z 0)) = of_Z 0)
    by (vm_compute; reflexivity).
  assert (H2 : @add float number_arith (of_Z 0) (mul (of_Z 0) (of_Z 0)) = of_Z 0)
    by (vm_compute; reflexivity).
  assert (H3 : @ltb float _ (of_Z 0) (div (of_Z 97) (of_Z 100)) = true)
    by (vm_compute; reflexivity).
  assert (H4 : @eqb float _ (of_Z 0) (of_Z 0) = true)
    by (vm_compute; reflexivity).
  exact (@lpcAnalysis_silent float float_Number float_BreakdownLaws _
           H1 H2 H3 H4 n order Hn Ho).
Qed.

(** The statement at 160 silent samples and order 12, the order the Max
    wrapper asks for. *)
Lemma lpcAnalysis_silent_frame_witness :
  length (lpcAnalysis_default (repeat (of_Z 0 : float) 160) 12) = 12 + 1
  /\ rd (lpcAnalysis_default (repeat (of_Z 0 : float) 160) 12) 0 = of_Z 1
  /\ isFinite (rd (lpcAnalysis_default (repeat (of_Z 0 : float) 160) 12) 1)
     = false.
Proof.
  apply (@lpcAnalysis_silent_frame 160 12); lia.
Defined.

(** ** Pitch detector: a silent signal *)

Section SilentSignal.
Context {T : Type} {N : Number T}.
Hypothesis silent_add : add (of_Z 0 : T) (mul (of_Z 0) (of_Z 0)) = of_Z 0.
Hypothesis silent_eqb : eqb (of_Z 0 : T) (of_Z 0) = true.
Hypothesis silent_ltb : ltb (of_Z 0 : T) (of_Z 0) = false.
Hypothesis bottom_eqb : eqb (neg infinity : T) (neg infinity) = true.
Hypothesis bottom_ltb : ltb (neg infinity : T) (of_Z 0) = true.

Lemma autocorr_of_silence (n : nat) :
  autocorr (repeat (of_Z 0 : T) n) = repeat (of_Z 0) n.
Proof.
  apply (nth_ext _ _ nan nan).
  - unfold autocorr. rewrite length_map, length_seq, !repeat_length.
    reflexivity.
  - unfold autocorr. rewrite length_map, length_seq, !repeat_length.
    intros lag Hlag. rewrite nth_map_seq by exact Hlag.
    fold (rd (repeat (of_Z 0 : T) n) lag). rewrite rd_repeat by exact Hlag.
    apply (@fold_left_invariant _ _
             (fun sum => sum = (of_Z 0 : T)) (fun i => i < n - lag)).
    + intros sum i Hi ->. rewrite !rd_repeat by lia. exact silent_add.
    + apply Forall_seq. intros; lia.
    + reflexivity.
Qed.

Lemma Math_max_of_silence (n : nat) :
  0 < n -> Math_max (repeat (of_Z 0 : T) n) = of_Z 0.
Proof.
  intros Hn. destruct n as [ | n ]; [ lia | ].
  unfold Math_max. cbn [repeat fold_left].
  rewrite silent_eqb, bottom_eqb, bottom_ltb. cbn [negb].
  clear Hn. induction n as [ | n IH ]; [ reflexivity | ].
  cbn [repeat fold_left]. rewrite silent_eqb, silent_ltb. cbn [negb].
  exact IH.
Qed.

Lemma pitchDetection_of_silence (fuel n : nat) (fs minFreq maxFreq : T) :
  0 < n ->
  pitchDetectionAutocorr fuel (repeat (of_Z 0) n) fs minFreq maxFreq
  = Some (of_Z 0).
Proof.
  intros Hn. unfold pitchDetectionAutocorr.
  rewrite autocorr_of_silence, Math_max_of_silence by exact Hn.
  rewrite silent_eqb. reflexivity.
Qed.

End SilentSignal.

(** In binary64, for a silent signal of at least one sample the detector
    answers 0 before it looks at its other arguments: whatever the
    sampling rate and the band are, NaN and zero included, and whatever
    bound the scan is given. *)
Theorem pitchDetection_silent_signal (fuel n : nat) (fs minFreq maxFreq : float) :
  0 < n ->
  pitchDetectionAutocorr fuel (repeat (of_Z 0) n) fs minFreq maxFreq
  = Some (of_Z 0).
Proof.
  intros Hn.
  assert (H1 : @add float number_arith (of_Z 0) (mul (of_Z 0) (of_Z 0)) = of_Z 0)
    by (vm_compute; reflexivity).
  assert (H2 : @eqb float _ (of_Z 0) (of_Z 0) = true)
    by (vm_compute; reflexivity).
  assert (H3 : @ltb float _ (of_Z 0) (of_Z 0) = false)
    by (vm_compute; reflexivity).
  assert (H4 : @eqb float _ (neg infinity) (neg infinity) = true)
    by (vm_compute; reflexivity).
  assert (H5 : @ltb float _ (neg infinity) (of_Z 0) = true)
    by (vm_compute; reflexivity).
  exact (@pitchDetection_of_silence float float_Number H1 H2 H3 H4 H5
           fuel n fs minFreq maxFreq Hn).
Qed.

(** The statement at 400 silent samples with a rate that is NaN. *)
Lemma pitchDetection_silent_signal_witness :
  pitchDetectionAutocorr 0 (repeat (of_Z 0) 400) nan (of_Z 80) (of_Z 300)
  = Some (of_Z 0 : float).
Proof.
  apply (@pitchDetection_silent_signal 0 400 nan (of_Z 80) (of_Z 300)). lia.
Defined.

(** ** Complex numbers: NaN does not survive *)

Lemma or0_not_nan (x : float) : eqb (or0 x) (or0 x) = true.
Proof.
  unfold or0. cbn [truthy float_Arith eqb float_Number].
  destruct (PrimFloat.eqb x 0) eqn:E0; cbn [negb andb].
  - vm_compute; reflexivity.
  - destruct (PrimFloat.eqb x x) eqn:Ex.
    + exact Ex.
    + vm_compute; reflexivity.
Qed.

(** In binary64 every [Complex] the constructor, [add], [sub] or [mul]
    builds has two fields that are not NaN: [re || 0] stores 0 for a
    NaN, so a NaN that enters the arithmetic comes out as a zero. *)
Theorem Complex_fields_never_nan (r i : float) (c d : Complex float) :
  Forall (fun z : Complex float =>
            eqb (re z) (re z) = true /\ eqb (im z) (im z) = true)
         [new_Complex r i; Complex_add c d; Complex_sub c d; Complex_mul c d]
  /\ new_Complex (nan : float) nan = new_Complex (of_Z 0) (of_Z 0).
Proof.
  split.
  - repeat constructor; apply or0_not_nan.
  - vm_compute; reflexivity.
Qed.
